(** * dinner.py: choosing the largest dinner party with no mutual dislikes

    A shallow embedding of [src/dinner.py] and the properties its
    specification states about it.

    Data model.  A guest is a Python [str].  The [friends] argument of every
    function is a Python [dict] from guest to a list of guests: an
    insertion-ordered mapping with pairwise distinct keys, modelled as an
    association list (the order of the keys decides the enumeration order of
    [generate_all_subsets]).  The result of [find_dislikes] is a Python [set]
    of 2-tuples, modelled as a [gset]; the order in which Python iterates
    over a set is not specified (it depends on the hashes of the strings), so
    every function that iterates over one takes the iteration order as a
    parameter [iter].  Operations that can raise in Python ([d[k]], [l[i]],
    [l.remove(x)]) return [option], [None] standing for the exception.

    The functions are first given on values, which is what their results
    are; [filter_bad_invites] also writes to the list it is given, so the
    module [Store] gives the functions again on references into a store of
    list and dict objects. *)

From stdpp Require Import strings numbers option list sets gmap sorting.

Local Open Scope string_scope.
Local Open Scope list_scope.
Local Open Scope nat_scope.
Local Open Scope stdpp_scope.

(** ** Data *)

Abbreviation guest := string (only parsing).

(** A list of guests, the representation of a candidate subset. *)
Abbreviation subset := (list guest) (only parsing).

(** The adjacency mapping, in insertion order. *)
Abbreviation dict := (list (guest * list guest)) (only parsing).

(** A tuple [(person, dislike)]. *)
Abbreviation edge := (guest * guest)%type (only parsing).

(** [list(friends.keys())], also the order of [for person in friends]. *)
Definition keys (friends : dict) : list guest := friends.*1.

(** The keys of a Python dict are pairwise distinct. *)
Definition dict_wf (friends : dict) : Prop := NoDup (keys friends).

(** [friends[k]]; [None] is the [KeyError]. *)
Fixpoint getitem (friends : dict) (k : guest) : option (list guest) :=
  match friends with
  | [] => None
  | (k', v) :: rest => if decide (k' = k) then Some v else getitem rest k
  end.

(** [friends[k] = v]: an existing key keeps its place, a new key goes last. *)
Fixpoint setitem (friends : dict) (k : guest) (v : list guest) : dict :=
  match friends with
  | [] => [(k, v)]
  | (k', v') :: rest =>
      if decide (k' = k) then (k, v) :: rest else (k', v') :: setitem rest k v
  end.

(** An admissible iteration order over a Python set: every element once. *)
Definition iteration_order (iter : gset edge → list edge) : Prop :=
  ∀ s, iter s ≡ₚ elements s.

(** ** find_dislikes *)

(** The inner loop [for dislike in friends[person]]. *)
Fixpoint add_dislikes (person : guest) (ds : list guest) (dislikes : gset edge)
  : gset edge :=
  match ds with
  | [] => dislikes
  | dislike :: ds' =>
      add_dislikes person ds'
        (if decide ((dislike, person) ∈ dislikes) then dislikes
         else {[ (person, dislike) ]} ∪ dislikes)
  end.

(** The outer loop [for person in friends], over the remaining keys. *)
Fixpoint find_dislikes_loop (friends : dict) (persons : list guest)
    (dislikes : gset edge) : option (gset edge) :=
  match persons with
  | [] => Some dislikes
  | person :: persons' =>
      ds ← getitem friends person;
      find_dislikes_loop friends persons' (add_dislikes person ds dislikes)
  end.

Definition find_dislikes (friends : dict) : option (gset edge) :=
  find_dislikes_loop friends (keys friends) ∅.

(** ** generate_all_subsets *)

(** The inner loop [for j in range(n)], over the remaining values of [j];
    [n - 1 - j] never goes below zero since [j < n]. *)
Fixpoint bits_loop (friend_list : list guest) (n : nat) (js : list nat)
    (num : nat) (new_subset : subset) : option subset :=
  match js with
  | [] => Some new_subset
  | j :: js' =>
      new_subset' ←
        (if decide (num mod 2 = 1)
         then x ← friend_list !! (n - 1 - j); Some ([x] ++ new_subset)
         else Some new_subset);
      bits_loop friend_list n js' (num / 2) new_subset'
  end.

(** The outer loop [for i in range(2**n)], over the remaining values of [i]. *)
Fixpoint subsets_loop (friend_list : list guest) (n : nat) (nums : list nat)
    (all_subsets : list subset) : option (list subset) :=
  match nums with
  | [] => Some all_subsets
  | i :: nums' =>
      new_subset ← bits_loop friend_list n (seq 0 n) i [];
      subsets_loop friend_list n nums' (all_subsets ++ [new_subset])
  end.

Definition generate_all_subsets (friends : dict) : option (list subset) :=
  let friend_list := keys friends in
  let n := length friends in
  subsets_loop friend_list n (seq 0 (2 ^ n)) [].

(** ** filter_bad_invites *)

(** [pair[0] in set and pair[1] in set]. *)
Definition both_in (set : subset) (pr : edge) : bool :=
  bool_decide (pr.1 ∈ set) && bool_decide (pr.2 ∈ set).

(** The loop [for pair in find_dislikes(friends)] for one [set]. *)
Fixpoint pairs_loop (set : subset) (pairs : list edge)
    (bad_invites : list subset) : list subset :=
  match pairs with
  | [] => bad_invites
  | pr :: pairs' =>
      pairs_loop set pairs'
        (if both_in set pr then bad_invites ++ [set] else bad_invites)
  end.

(** The first loop, [for set in all_subsets]; [find_dislikes(friends)] is
    evaluated anew for every [set]. *)
Fixpoint collect_loop (iter : gset edge → list edge) (friends : dict)
    (sets : list subset) (bad_invites : list subset) : option (list subset) :=
  match sets with
  | [] => Some bad_invites
  | set :: sets' =>
      dislikes ← find_dislikes friends;
      collect_loop iter friends sets'
        (pairs_loop set (iter dislikes) bad_invites)
  end.

(** [l.remove(x)]: drops the first item equal to [x]; [None] is the
    [ValueError] raised when there is none. *)
Fixpoint list_remove (x : subset) (l : list subset) : option (list subset) :=
  match l with
  | [] => None
  | y :: l' => if decide (y = x) then Some l' else (y ::.) <$> list_remove x l'
  end.

(** The second loop, [for set in bad_invites], on the contents of the list
    that [good_invites] names. *)
Fixpoint remove_loop (bad_invites : list subset) (good_invites : list subset)
  : option (list subset) :=
  match bad_invites with
  | [] => Some good_invites
  | set :: bad' =>
      good' ← (if decide (set ∈ good_invites)
               then list_remove set good_invites else Some good_invites);
      remove_loop bad' good'
  end.

(** The contents of the returned list. *)
Definition filter_bad_invites (iter : gset edge → list edge)
    (all_subsets : list subset) (friends : dict) : option (list subset) :=
  bad_invites ← collect_loop iter friends all_subsets [];
  remove_loop bad_invites all_subsets.

(** ** filter_no_dislikes *)

Fixpoint no_dislikes_loop (friends : dict) (items : list guest)
    (no_dislikes : list guest) (new_friends : dict)
  : option (list guest * dict) :=
  match items with
  | [] => Some (no_dislikes, new_friends)
  | item :: items' =>
      v ← getitem friends item;
      if decide (v = [])
      then no_dislikes_loop friends items' (no_dislikes ++ [item]) new_friends
      else no_dislikes_loop friends items' no_dislikes (setitem new_friends item v)
  end.

Definition filter_no_dislikes (friends : dict) : option (list guest * dict) :=
  no_dislikes_loop friends (keys friends) [] [].

(** ** invite_to_dinner, invite_to_dinner_optimized *)

(** The selection loop [for potential_subset in good_subsets]; the test is
    [len(potential_subset) > len(invite_list)]. *)
Fixpoint select_loop (good_subsets : list subset) (invite_list : subset)
  : subset :=
  match good_subsets with
  | [] => invite_list
  | potential_subset :: rest =>
      select_loop rest
        (if decide (length invite_list < length potential_subset)
         then potential_subset else invite_list)
  end.

(** [invite_list] starts as a new empty list and is rebound to a subset of
    [good_subsets] whenever that one is longer. *)
Definition invite_to_dinner (iter : gset edge → list edge) (friends : dict)
  : option subset :=
  all_subsets ← generate_all_subsets friends;
  good_subsets ← filter_bad_invites iter all_subsets friends;
  Some (select_loop good_subsets []).

(** [better[1]] is enumerated, but the filter gets the whole [friends];
    [invite_list += better[0]] extends the selected list by the guests
    without dislikes. *)
Definition invite_to_dinner_optimized (iter : gset edge → list edge)
    (friends : dict) : option subset :=
  better ← filter_no_dislikes friends;
  bad_subsets ← generate_all_subsets better.2;
  good_subsets ← filter_bad_invites iter bad_subsets friends;
  Some (select_loop good_subsets [] ++ better.1).

(** ** The functions on references

    Python passes lists and dicts by reference.  [filter_bad_invites] binds
    [good_invites] to the very list object it was given as [all_subsets] and
    removes items from it, so what a caller sees of its argument after the
    call depends on the store.  Here the store holds the outer list objects
    (lists of subsets) and the dict objects; the functions take and return
    references, and read and write the store as the source does. *)
Module Store.

Inductive obj : Type :=
| OList (l : list subset)
| ODict (d : dict).

Abbreviation heap := (gmap nat obj) (only parsing).

Definition read_list (h : heap) (a : nat) : option (list subset) :=
  match h !! a with Some (OList l) => Some l | _ => None end.

Definition read_dict (h : heap) (f : nat) : option dict :=
  match h !! f with Some (ODict d) => Some d | _ => None end.

(** A new object, at a reference not in use. *)
Definition alloc (o : obj) (h : heap) : nat * heap :=
  let a := fresh (dom h) in (a, <[a := o]> h).

Definition find_dislikes (friends : nat) (h : heap)
  : option (gset edge * heap) :=
  d ← read_dict h friends;
  dislikes ← find_dislikes d;
  Some (dislikes, h).

(** [all_subsets = []] makes a new list object, which is returned. *)
Definition generate_all_subsets (friends : nat) (h : heap)
  : option (nat * heap) :=
  d ← read_dict h friends;
  all_subsets ← generate_all_subsets d;
  Some (alloc (OList all_subsets) h).

(** The second loop: [good_invites.remove(set)] writes to the object that
    [good_invites] refers to. *)
Fixpoint remove_loop (bad_invites : list subset) (good_invites : nat)
    (h : heap) : option heap :=
  match bad_invites with
  | [] => Some h
  | set :: bad' =>
      l ← read_list h good_invites;
      h' ← (if decide (set ∈ l)
            then l' ← list_remove set l;
                 Some (<[good_invites := OList l']> h)
            else Some h);
      remove_loop bad' good_invites h'
  end.

(** [good_invites = all_subsets] copies the reference, not the list;
    [bad_invites] is a list of its own that no one else refers to. *)
Definition filter_bad_invites (iter : gset edge → list edge)
    (all_subsets friends : nat) (h : heap) : option (nat * heap) :=
  let good_invites := all_subsets in
  l ← read_list h all_subsets;
  d ← read_dict h friends;
  bad_invites ← collect_loop iter d l [];
  h' ← remove_loop bad_invites good_invites h;
  Some (good_invites, h').

(** [new_friends = {}] makes a new dict object; [no_dislikes] is a list of
    guests, kept as a value. *)
Definition filter_no_dislikes (friends : nat) (h : heap)
  : option ((list guest * nat) * heap) :=
  d ← read_dict h friends;
  r ← filter_no_dislikes d;
  let '(new_friends, h') := alloc (ODict r.2) h in
  Some ((r.1, new_friends), h').

Definition invite_to_dinner (iter : gset edge → list edge) (friends : nat)
    (h : heap) : option (subset * heap) :=
  '(all_subsets, h1) ← generate_all_subsets friends h;
  '(good_subsets, h2) ← filter_bad_invites iter all_subsets friends h1;
  l ← read_list h2 good_subsets;
  Some (select_loop l [], h2).

Definition invite_to_dinner_optimized (iter : gset edge → list edge)
    (friends : nat) (h : heap) : option (subset * heap) :=
  '(better, h1) ← filter_no_dislikes friends h;
  '(bad_subsets, h2) ← generate_all_subsets better.2 h1;
  '(good_subsets, h3) ← filter_bad_invites iter bad_subsets friends h2;
  l ← read_list h3 good_subsets;
  Some (select_loop l [] ++ better.1, h3).

(** A store with a list of two subsets at reference 0 and the mapping
    [friends_2] of the driver at reference 1. *)
Definition heap_0 : heap :=
  <[0 := OList [["Alice"]; ["Alice"; "Bob"]]]>
    (<[1 := ODict [("Alice", ["Bob"]); ("Bob", ["Alice"; "Eve"]);
                   ("Eve", ["Bob"])]]> ∅).

End Store.

(** ** Example inputs from the driver at the end of the source *)

Definition friends_1 : dict :=
  [("Alice", ["Bob"]); ("Bob", ["Alice"; "Eve"]); ("Cleo", []); ("Don", []);
   ("Eve", ["Bob"])].

Definition friends_2 : dict :=
  [("Alice", ["Bob"]); ("Bob", ["Alice"; "Eve"]); ("Eve", ["Bob"])].

Definition friends_3 : dict :=
  [("Asa", []); ("Bear", ["Cate"]); ("Cate", ["Bear"; "Dave"]);
   ("Dave", ["Cate"; "Eve"]); ("Eve", ["Dave"]); ("Finn", ["Ginny"; "Ivan"]);
   ("Ginny", ["Finn"; "Haruki"]); ("Haruki", ["Ginny"]); ("Ivan", ["Finn"])].

(** The input on which the one-directional listing matters: Alice lists Bob,
    Bob lists nobody. *)
Definition friends_one_way : dict := [("Alice", ["Bob"]); ("Bob", [])].

(** A guest who lists itself. *)
Definition friends_self : dict := [("Ann", ["Ann"])].

(** A listed dislike that is not a key. *)
Definition friends_dangling : dict := [("Alice", ["Bob"])].

(** Keys not in alphabetical order. *)
Definition friends_unsorted : dict := [("Bob", ["Alice"]); ("Alice", ["Bob"])].

(** ** Notions of the specification *)

(** [a] lists [b] among its dislikes. *)
Definition lists (friends : dict) (a b : guest) : Prop :=
  ∃ ds, getitem friends a = Some ds ∧ b ∈ ds.

(** Both endpoints of the tuple are in the subset. *)
Definition contains_edge (s : subset) (p : edge) : Prop := p.1 ∈ s ∧ p.2 ∈ s.

(** A candidate subset is valid when it contains no edge of [E]. *)
Definition valid (E : gset edge) (s : subset) : Prop :=
  set_Forall (λ p, ¬ contains_edge s p) E.

#[global] Instance contains_edge_dec s p : Decision (contains_edge s p).
Proof. unfold contains_edge. apply _. Defined.

#[global] Instance valid_dec E s : Decision (valid E s).
Proof. unfold valid. apply _. Defined.

(** The number of items of [l] equal to [s]. *)
Definition count (s : subset) (l : list subset) : nat :=
  length (filter (λ y, y = s) l).

(** Dislikes between guests of the mapping are listed in both directions. *)
Definition reciprocal (friends : dict) : Prop :=
  ∀ a b, lists friends a b → b ∈ keys friends → lists friends b a.

(** Every listed dislike is listed back: the mapping is the adjacency list of
    an undirected graph on its keys. *)
Definition mutual (friends : dict) : Prop :=
  ∀ a b, lists friends a b → lists friends b a.

(** No guest lists any dislike. *)
Definition no_dislikes_listed (friends : dict) : Prop :=
  ∀ a b, ¬ lists friends a b.

(** [a] comes before [b] in the list. *)
Definition precedes (l : list guest) (a b : guest) : Prop :=
  ∃ l1 l2, l = l1 ++ a :: l2 ∧ b ∈ l2.

(** The keys are in alphabetical order. *)
Definition keys_ascending (friends : dict) : Prop :=
  StronglySorted (λ a b, String.leb a b = true) (keys friends).

(** The tuple lists its two guests in alphabetical order. *)
Definition tuple_sorted (p : edge) : Prop := String.leb p.1 p.2 = true.

(** No pair of distinct guests is held in both orientations. *)
Definition one_orientation (dislikes : gset edge) : Prop :=
  ∀ a b, (a, b) ∈ dislikes → (b, a) ∈ dislikes → a = b.

(** The edge set in the canonical form of the specification: each unordered
    pair once, every tuple sorted, both endpoints keys of the mapping. *)
Definition edges_canonical (friends : dict) (E : gset edge) : Prop :=
  one_orientation E ∧
  (∀ p, p ∈ E → tuple_sorted p) ∧
  (∀ p, p ∈ E → p.1 ∈ keys friends ∧ p.2 ∈ keys friends).

(** The subset that the number [i] stands for: the guest with [j] guests
    after it in [friend_list] is included when bit [j] of [i] is set. *)
Fixpoint subset_of_bits (friend_list : list guest) (i : nat) : subset :=
  match friend_list with
  | [] => []
  | x :: rest =>
      (if Nat.testbit i (length rest) then [x] else []) ++ subset_of_bits rest i
  end.

(** Counting from [0] to [2^N - 1]. *)
Definition bit_enumeration (friend_list : list guest) : list subset :=
  subset_of_bits friend_list <$> seq 0 (2 ^ length friend_list).

(** [r] is the first element of [l] of greatest length. *)
Definition first_longest (r : subset) (l : list subset) : Prop :=
  ∃ l1 l2, l = l1 ++ r :: l2 ∧
    (∀ x, x ∈ l1 → length x < length r) ∧
    (∀ x, x ∈ l2 → length x ≤ length r).

(** The guests with an empty list, and the entries of the others. *)
Definition isolated (friends : dict) : list guest :=
  (filter (λ kv, kv.2 = []) friends).*1.

Definition entangled (friends : dict) : dict :=
  filter (λ kv, kv.2 ≠ []) friends.

(** * Properties *)

(** ** Dictionaries *)

Lemma getitem_Some_elem_of friends k v :
  getitem friends k = Some v → (k, v) ∈ friends.
Proof.
  induction friends as [|[k' v'] rest IH]; simpl; [done|].
  case_decide as Hk.
  - intros [= ->]. subst. left.
  - intros H. right. auto.
Qed.

Lemma getitem_key friends k : k ∈ keys friends → is_Some (getitem friends k).
Proof.
  unfold keys. induction friends as [|[k' v'] rest IH]; simpl.
  - by intros ?%elem_of_nil.
  - intros [->|H]%elem_of_cons; case_decide; eauto; done.
Qed.

Lemma getitem_wf friends k v :
  dict_wf friends → (k, v) ∈ friends → getitem friends k = Some v.
Proof.
  unfold dict_wf, keys. induction friends as [|[k' v'] rest IH]; simpl.
  - by intros _ ?%elem_of_nil.
  - intros [Hk Hnd]%NoDup_cons [[= -> ->]|H]%elem_of_cons.
    + by rewrite decide_True.
    + rewrite decide_False; [auto|]. intros ->. apply Hk.
      apply list_elem_of_fmap. by exists (k, v).
Qed.

Lemma lists_key friends a b : lists friends a b → a ∈ keys friends.
Proof.
  intros (ds & Hds & _). apply getitem_Some_elem_of in Hds.
  unfold keys. apply list_elem_of_fmap. by exists (a, ds).
Qed.

(** ** find_dislikes *)

Lemma add_dislikes_mono person ds dislikes p :
  p ∈ dislikes → p ∈ add_dislikes person ds dislikes.
Proof.
  revert dislikes. induction ds as [|d ds IH]; simpl; intros dislikes Hp; [done|].
  apply IH. case_decide; set_solver.
Qed.

Lemma add_dislikes_elem person ds dislikes p :
  p ∈ add_dislikes person ds dislikes →
  p ∈ dislikes ∨ (p.1 = person ∧ p.2 ∈ ds).
Proof.
  revert dislikes. induction ds as [|d ds IH]; simpl; intros dislikes Hp; [by left|].
  apply IH in Hp as [Hp|[? ?]].
  - case_decide; [by left|].
    apply elem_of_union in Hp as [->%elem_of_singleton|?]; [|by left].
    right. simpl. split; [done|left].
  - right. split; [done|by right].
Qed.

Lemma add_dislikes_cover person ds dislikes b :
  b ∈ ds →
  (person, b) ∈ add_dislikes person ds dislikes ∨
  (b, person) ∈ add_dislikes person ds dislikes.
Proof.
  revert dislikes. induction ds as [|d ds IH]; simpl; intros dislikes.
  - by intros ?%elem_of_nil.
  - intros [->|H]%elem_of_cons; [|by apply IH].
    case_decide.
    + right. by apply add_dislikes_mono.
    + left. apply add_dislikes_mono. set_solver.
Qed.

Lemma add_dislikes_orientation person ds dislikes :
  one_orientation dislikes → one_orientation (add_dislikes person ds dislikes).
Proof.
  revert dislikes. induction ds as [|d ds IH]; simpl; intros dislikes Hinv; [done|].
  apply IH. case_decide as Hd; [done|].
  intros a b [Hab|Hab]%elem_of_union [Hba|Hba]%elem_of_union;
    rewrite ?elem_of_singleton in *; simplify_eq; auto; by destruct Hd.
Qed.

Lemma find_dislikes_loop_total friends persons dislikes :
  persons ⊆ keys friends → is_Some (find_dislikes_loop friends persons dislikes).
Proof.
  revert dislikes. induction persons as [|person persons IH]; simpl; intros dislikes Hsub.
  - eauto.
  - destruct (getitem_key friends person) as [ds ->]; [set_solver|].
    simpl. apply IH. set_solver.
Qed.

Lemma find_dislikes_loop_elem friends persons dislikes E p :
  find_dislikes_loop friends persons dislikes = Some E → p ∈ E →
  p ∈ dislikes ∨ (p.1 ∈ persons ∧ lists friends p.1 p.2).
Proof.
  revert dislikes. induction persons as [|person persons IH]; simpl; intros dislikes.
  - intros [= ->]. by left.
  - destruct (getitem friends person) as [ds|] eqn:Hds; [simpl|done].
    intros HE Hp. destruct (IH _ HE Hp) as [H|[H1 H2]].
    + apply add_dislikes_elem in H as [H|[H1 H2]]; [by left|right].
      rewrite H1. split; [left|]. exists ds. by split.
    + right. split; [by right|done].
Qed.

Lemma find_dislikes_loop_mono friends persons dislikes E p :
  find_dislikes_loop friends persons dislikes = Some E → p ∈ dislikes → p ∈ E.
Proof.
  revert dislikes. induction persons as [|person persons IH]; simpl; intros dislikes.
  - by intros [= ->].
  - destruct (getitem friends person) as [ds|]; [simpl|done].
    intros HE Hp. eapply IH; [done|]. by apply add_dislikes_mono.
Qed.

Lemma find_dislikes_loop_cover friends persons dislikes E a b :
  find_dislikes_loop friends persons dislikes = Some E →
  a ∈ persons → lists friends a b → (a, b) ∈ E ∨ (b, a) ∈ E.
Proof.
  revert dislikes. induction persons as [|person persons IH]; simpl; intros dislikes.
  - by intros _ ?%elem_of_nil.
  - destruct (getitem friends person) as [ds|] eqn:Hds; [simpl|done].
    intros HE [->|Ha]%elem_of_cons Hab; [|by eapply IH].
    destruct Hab as (ds' & Hds' & Hb). rewrite Hds in Hds'. injection Hds' as ->.
    destruct (add_dislikes_cover person ds' dislikes b Hb) as [H|H];
      [left|right]; by eapply find_dislikes_loop_mono.
Qed.

Lemma find_dislikes_loop_orientation friends persons dislikes E :
  find_dislikes_loop friends persons dislikes = Some E →
  one_orientation dislikes → one_orientation E.
Proof.
  revert dislikes. induction persons as [|person persons IH]; simpl; intros dislikes.
  - by intros [= ->].
  - destruct (getitem friends person) as [ds|]; [simpl|done].
    intros HE Hinv. eapply IH; [done|]. by apply add_dislikes_orientation.
Qed.

Lemma find_dislikes_total friends : is_Some (find_dislikes friends).
Proof. by apply find_dislikes_loop_total. Qed.

Lemma find_dislikes_elem friends E a b :
  find_dislikes friends = Some E → (a, b) ∈ E → lists friends a b.
Proof.
  intros HE Hp. destruct (find_dislikes_loop_elem _ _ _ _ _ HE Hp) as [H|[_ H]];
    [set_solver|done].
Qed.

Lemma find_dislikes_cover friends E a b :
  find_dislikes friends = Some E → lists friends a b → (a, b) ∈ E ∨ (b, a) ∈ E.
Proof.
  intros HE Hab. eapply find_dislikes_loop_cover; [done| |done].
  by eapply lists_key.
Qed.

Lemma find_dislikes_orientation friends E :
  find_dislikes friends = Some E → one_orientation E.
Proof.
  intros HE. eapply find_dislikes_loop_orientation; [done|].
  intros a b H. set_solver.
Qed.

(** ** generate_all_subsets *)

Lemma testbit_div2 i k : Nat.testbit i k = bool_decide ((i / 2 ^ k) mod 2 = 1).
Proof.
  rewrite Nat.testbit_eqb. destruct (Nat.eqb_spec ((i / 2 ^ k) mod 2) 1).
  - by rewrite bool_decide_eq_true_2.
  - by rewrite bool_decide_eq_false_2.
Qed.

(** After the rounds [j = 0 .. k-1] the loop holds the subset of the last [k]
    guests and the number shifted by [k] bits. *)
Lemma bits_loop_spec friend_list i r k :
  k + r = length friend_list →
  bits_loop friend_list (length friend_list) (seq k r) (i / 2 ^ k)
    (subset_of_bits (drop r friend_list) i)
  = Some (subset_of_bits friend_list i).
Proof.
  revert k. induction r as [|r IH]; intros k Hk.
  - by rewrite drop_0.
  - cbn [seq bits_loop].
    assert (length friend_list - 1 - k = r) as -> by lia.
    destruct (lookup_lt_is_Some_2 friend_list r) as [x Hx]; [lia|].
    rewrite Hx. specialize (IH (S k)).
    rewrite (drop_S _ _ _ Hx) in IH. cbn [subset_of_bits] in IH.
    rewrite length_drop in IH.
    assert (length friend_list - S r = k) as Hlen by lia. rewrite Hlen in IH.
    rewrite testbit_div2 in IH.
    rewrite Nat.pow_succ_r', (Nat.mul_comm 2), <- Nat.Div0.div_div in IH.
    case_decide as Hbit.
    + rewrite bool_decide_eq_true_2 in IH by done. apply IH. lia.
    + rewrite bool_decide_eq_false_2 in IH by done. apply IH. lia.
Qed.

Lemma bits_loop_all friend_list i :
  bits_loop friend_list (length friend_list) (seq 0 (length friend_list)) i []
  = Some (subset_of_bits friend_list i).
Proof.
  pose proof (bits_loop_spec friend_list i (length friend_list) 0 eq_refl) as H.
  by rewrite drop_all, Nat.pow_0_r, Nat.div_1_r in H.
Qed.

Lemma subsets_loop_spec friend_list nums all_subsets :
  subsets_loop friend_list (length friend_list) nums all_subsets
  = Some (all_subsets ++ (subset_of_bits friend_list <$> nums)).
Proof.
  revert all_subsets. induction nums as [|i nums IH]; intros all_subsets; simpl.
  - by rewrite app_nil_r.
  - rewrite bits_loop_all. simpl. rewrite IH. by rewrite <- app_assoc.
Qed.

Lemma generate_all_subsets_spec friends :
  generate_all_subsets friends = Some (bit_enumeration (keys friends)).
Proof.
  unfold generate_all_subsets, bit_enumeration, keys.
  rewrite length_fmap. rewrite <- (length_fmap fst friends) at 1.
  by rewrite subsets_loop_spec.
Qed.

Lemma subset_of_bits_low x xs i :
  i < 2 ^ length xs → subset_of_bits (x :: xs) i = subset_of_bits xs i.
Proof.
  intros Hi. simpl. rewrite testbit_div2, Nat.div_small by done. done.
Qed.

Lemma subset_of_bits_mod l i m :
  length l ≤ m → subset_of_bits l (i mod 2 ^ m) = subset_of_bits l i.
Proof.
  induction l as [|x l IH]; simpl; intros Hm; [done|].
  rewrite IH by lia. by rewrite Nat.mod_pow2_bits_low by lia.
Qed.

Lemma subset_of_bits_high x xs i :
  i < 2 ^ length xs →
  subset_of_bits (x :: xs) (2 ^ length xs + i) = x :: subset_of_bits xs i.
Proof.
  intros Hi. cbn [subset_of_bits].
  assert (2 ^ length xs ≠ 0) as Hpow by (apply Nat.pow_nonzero; lia).
  rewrite testbit_div2.
  replace (2 ^ length xs + i) with (i + 1 * 2 ^ length xs) by lia.
  rewrite Nat.div_add, Nat.div_small by done.
  rewrite <- (subset_of_bits_mod xs (i + _) (length xs)) by done.
  by rewrite Nat.Div0.mod_add, subset_of_bits_mod.
Qed.

(** The enumeration doubles with every guest put in front. *)
Lemma bit_enumeration_cons x xs :
  bit_enumeration (x :: xs)
  = bit_enumeration xs ++ ((x ::.) <$> bit_enumeration xs).
Proof.
  unfold bit_enumeration. simpl length.
  rewrite Nat.pow_succ_r', (Nat.mul_comm 2), Nat.mul_succ_r, Nat.mul_1_r.
  rewrite seq_app, fmap_app. f_equal.
  - apply list_fmap_ext. intros j i [-> Hj]%lookup_seq.
    by apply subset_of_bits_low.
  - rewrite (Nat.add_comm 0), <- fmap_add_seq, <- !list_fmap_compose.
    apply list_fmap_ext. intros j i [-> Hj]%lookup_seq.
    by apply subset_of_bits_high.
Qed.

Lemma length_bit_enumeration l : length (bit_enumeration l) = 2 ^ length l.
Proof. unfold bit_enumeration. by rewrite length_fmap, length_seq. Qed.

Lemma lookup_bit_enumeration l i :
  i < 2 ^ length l → bit_enumeration l !! i = Some (subset_of_bits l i).
Proof.
  intros Hi. unfold bit_enumeration.
  by rewrite list_lookup_fmap, lookup_seq_lt.
Qed.

Lemma elem_of_bit_enumeration l s : s ∈ bit_enumeration l ↔ s `sublist_of` l.
Proof.
  revert s. induction l as [|x l IH]; intros s.
  - unfold bit_enumeration. simpl. rewrite list_elem_of_singleton.
    split; [intros ->; constructor|apply sublist_nil_r].
  - rewrite bit_enumeration_cons, elem_of_app, list_elem_of_fmap, sublist_cons_r.
    split.
    + intros [Hs|(s' & -> & Hs')]; [left; by apply IH|right].
      exists s'. split; [done|by apply IH].
    + intros [Hs|(s' & -> & Hs')]; [left; by apply IH|right].
      exists s'. split; [done|by apply IH].
Qed.

Lemma NoDup_bit_enumeration l : NoDup l → NoDup (bit_enumeration l).
Proof.
  induction l as [|x l IH].
  - intros _. unfold bit_enumeration. simpl. apply NoDup_singleton.
  - intros [Hx Hl]%NoDup_cons. rewrite bit_enumeration_cons.
    apply NoDup_app. split_and!.
    + auto.
    + intros s Hs (s' & -> & _)%list_elem_of_fmap.
      apply elem_of_bit_enumeration in Hs. apply Hx.
      eapply elem_of_sublist; [|done]. left.
    + apply NoDup_fmap_2; [|auto]. by intros ?? [=].
Qed.

Lemma subset_of_bits_0 l : subset_of_bits l 0 = [].
Proof. induction l as [|x l IH]; simpl; [done|]. by rewrite Nat.bits_0. Qed.

Lemma subset_of_bits_ones l n :
  length l ≤ n → subset_of_bits l (2 ^ n - 1) = l.
Proof.
  rewrite Nat.sub_1_r, <- Nat.ones_equiv.
  induction l as [|x l IH]; simpl; intros Hn; [done|].
  rewrite Nat.ones_spec_low by lia. simpl. f_equal. apply IH. lia.
Qed.

(** ** filter_bad_invites *)

Lemma both_in_true set p : both_in set p = true ↔ contains_edge set p.
Proof.
  unfold both_in, contains_edge.
  by rewrite andb_true_iff, !bool_decide_eq_true.
Qed.

Lemma not_valid E s : ¬ valid E s ↔ ∃ p, p ∈ E ∧ contains_edge s p.
Proof.
  split.
  - intros (p & Hp & Hc)%not_set_Forall_Exists; [|apply _].
    exists p. split; [done|]. by apply dec_stable.
  - intros (p & Hp & Hc) Hv. by apply (Hv p).
Qed.

Lemma count_nil s : count s [] = 0.
Proof. done. Qed.

Lemma count_cons s x l :
  count s (x :: l) = (if decide (x = s) then 1 else 0) + count s l.
Proof. unfold count. rewrite filter_cons. by case_decide. Qed.

Lemma count_app s l1 l2 : count s (l1 ++ l2) = count s l1 + count s l2.
Proof. unfold count. by rewrite filter_app, length_app. Qed.

Lemma count_elem_of s l : s ∈ l ↔ 0 < count s l.
Proof.
  induction l as [|x l IH]; [rewrite count_nil, elem_of_nil; lia|].
  rewrite count_cons, elem_of_cons, IH.
  destruct (decide (x = s)) as [->|Hne]; split.
  - lia.
  - by left.
  - intros [->|?]; [done|lia].
  - right. lia.
Qed.

(** One round of the first loop appends [set] once for every tuple that it
    contains. *)
Lemma pairs_loop_spec set pairs bad_invites :
  pairs_loop set pairs bad_invites
  = bad_invites ++ replicate (length (filter (contains_edge set) pairs)) set.
Proof.
  revert bad_invites. induction pairs as [|p pairs IH]; intros bad_invites; simpl.
  - by rewrite app_nil_r.
  - rewrite IH, filter_cons. destruct (both_in set p) eqn:Hp.
    + apply both_in_true in Hp. rewrite decide_True by done.
      by rewrite <- app_assoc.
    + rewrite decide_False; [done|].
      intros Hc%both_in_true. congruence.
Qed.

Lemma count_replicate s n x :
  count s (replicate n x) = if decide (x = s) then n else 0.
Proof.
  induction n as [|n IH]; simpl; [by case_decide|].
  rewrite count_cons, IH. by case_decide.
Qed.

Section filter_bad_invites.
Context (iter : gset edge → list edge) (Hiter : iteration_order iter).
Context (friends : dict) (E : gset edge) (HE : find_dislikes friends = Some E).

Lemma iter_elem_of p : p ∈ iter E ↔ p ∈ E.
Proof. by rewrite (Hiter E), elem_of_elements. Qed.

Lemma bad_pairs_length set :
  0 < length (filter (contains_edge set) (iter E)) ↔ ¬ valid E set.
Proof.
  rewrite not_valid. split.
  - destruct (filter _ _) as [|p ps] eqn:Hf; simpl; [lia|]. intros _.
    assert (p ∈ filter (contains_edge set) (iter E)) as Hp by (rewrite Hf; left).
    apply list_elem_of_filter in Hp as [Hc Hp]. exists p.
    by rewrite <- iter_elem_of.
  - intros (p & Hp & Hc).
    assert (p ∈ filter (contains_edge set) (iter E)) as Hin.
    { apply list_elem_of_filter. by rewrite iter_elem_of. }
    destruct (filter _ _); [by apply elem_of_nil in Hin|simpl; lia].
Qed.

(** The first loop: only invalid subsets are recorded, and every invalid
    subset at least as often as it occurs in the input. *)
Lemma collect_loop_spec sets bad_invites :
  ∃ bad', collect_loop iter friends sets bad_invites = Some bad' ∧
    (∀ s, s ∈ bad' → s ∈ bad_invites ∨ ¬ valid E s) ∧
    (∀ s, ¬ valid E s → count s bad_invites + count s sets ≤ count s bad').
Proof.
  revert bad_invites. induction sets as [|set sets IH]; intros bad_invites; simpl.
  - exists bad_invites. split_and!; [done|by left|].
    intros s _. rewrite count_nil. lia.
  - rewrite HE. simpl. rewrite pairs_loop_spec.
    destruct (IH (bad_invites ++
      replicate (length (filter (contains_edge set) (iter E))) set))
      as (bad' & -> & Hin & Hcount).
    exists bad'. split_and!; [done| |].
    + intros s Hs. destruct (Hin s Hs) as [[H|H]%elem_of_app|H]; [by left| |by right].
      right. apply elem_of_replicate in H as [-> Hn].
      apply bad_pairs_length. lia.
    + intros s Hs. specialize (Hcount s Hs).
      rewrite count_app, count_replicate in Hcount. rewrite count_cons.
      case_decide as Heq; [|lia]. subst s.
      apply bad_pairs_length in Hs. lia.
Qed.
End filter_bad_invites.

Lemma list_remove_total x l : x ∈ l → is_Some (list_remove x l).
Proof.
  induction l as [|y l IH]; simpl; [by intros ?%elem_of_nil|].
  intros Hx. case_decide as Hy; [eauto|].
  apply elem_of_cons in Hx as [->|Hx]; [done|].
  destruct (IH Hx) as [l' ->]. simpl. eauto.
Qed.

Lemma list_remove_count x l l' s :
  list_remove x l = Some l' →
  count s l' = count s l - (if decide (x = s) then 1 else 0).
Proof.
  revert l'. induction l as [|y l IH]; simpl; intros l'; [done|].
  destruct (decide (y = x)) as [Hy|Hy].
  - intros [= ->]. subst y. rewrite count_cons. case_decide; lia.
  - destruct (list_remove x l) as [l''|]; [simpl|done]. intros [= <-].
    rewrite !count_cons, (IH l'') by done.
    repeat case_decide; subst; try done; lia.
Qed.

Lemma list_remove_filter (P : subset → Prop) `{!∀ s, Decision (P s)} x l l' :
  list_remove x l = Some l' → ¬ P x → filter P l' = filter P l.
Proof.
  revert l'. induction l as [|y l IH]; simpl; intros l'; [done|].
  case_decide as Hy.
  - intros [= ->] Hx. subst y. by rewrite filter_cons_False.
  - destruct (list_remove x l) as [l''|]; [simpl|done]. intros [= <-] Hx.
    by rewrite !filter_cons, (IH l'').
Qed.

(** The second loop: what is removed is in [bad_invites], and every item goes
    as often as [bad_invites] names it. *)
Lemma remove_loop_spec (P : subset → Prop) `{!∀ s, Decision (P s)}
    bad_invites good_invites :
  (∀ s, s ∈ bad_invites → ¬ P s) →
  ∃ good', remove_loop bad_invites good_invites = Some good' ∧
    filter P good' = filter P good_invites ∧
    (∀ s, count s good' = count s good_invites - count s bad_invites).
Proof.
  revert good_invites.
  induction bad_invites as [|set bad IH]; intros good_invites Hbad; simpl.
  - exists good_invites. split_and!; [done..|]. intros s. rewrite count_nil. lia.
  - case_decide as Hin.
    + destruct (list_remove_total _ _ Hin) as [good1 Hrem]. rewrite Hrem. simpl.
      destruct (IH good1) as (good' & -> & Hf & Hc); [set_solver|].
      exists good'. split_and!; [done| |].
      * rewrite Hf. eapply list_remove_filter; [done|]. apply Hbad. left.
      * intros s. rewrite Hc, (list_remove_count _ _ _ s Hrem), count_cons.
        case_decide; lia.
    + simpl. destruct (IH good_invites) as (good' & -> & Hf & Hc); [set_solver|].
      exists good'. split_and!; [done..|].
      intros s. rewrite Hc, count_cons. case_decide as Heq; [|lia].
      subst s. rewrite count_elem_of in Hin. lia.
Qed.

Lemma filter_all {A} (P : A → Prop) `{!∀ x, Decision (P x)} (l : list A) :
  (∀ x, x ∈ l → P x) → filter P l = l.
Proof.
  induction l as [|x l IH]; intros Hall; [done|].
  rewrite filter_cons_True by (apply Hall; left). f_equal. apply IH.
  intros y Hy. apply Hall. by right.
Qed.

(** The returned list holds the valid subsets of the input, in input order. *)
Lemma filter_bad_invites_spec iter all_subsets friends E :
  iteration_order iter → find_dislikes friends = Some E →
  filter_bad_invites iter all_subsets friends
  = Some (filter (valid E) all_subsets).
Proof.
  intros Hiter HE. unfold filter_bad_invites.
  destruct (collect_loop_spec iter Hiter friends E HE all_subsets [])
    as (bad & -> & Hbad & Hcount). simpl.
  destruct (remove_loop_spec (valid E) bad all_subsets)
    as (good & -> & Hf & Hc).
  { intros s Hs. destruct (Hbad s Hs) as [?%elem_of_nil|?]; done. }
  f_equal. rewrite <- Hf. symmetry. apply filter_all.
  intros s Hs. destruct (decide (valid E s)) as [|Hinv]; [done|].
  apply count_elem_of in Hs. specialize (Hcount s Hinv). rewrite Hc in Hs.
  rewrite count_nil in Hcount. lia.
Qed.

(** ** filter_no_dislikes *)

Lemma setitem_fresh new_friends k v :
  k ∉ keys new_friends → setitem new_friends k v = new_friends ++ [(k, v)].
Proof.
  unfold keys. induction new_friends as [|[k' v'] rest IH]; simpl; [done|].
  intros [Hk Hrest]%not_elem_of_cons.
  rewrite decide_False by done. by rewrite IH.
Qed.

Lemma isolated_cons k v rest :
  isolated ((k, v) :: rest)
  = (if decide (v = []) then [k] else []) ++ isolated rest.
Proof. unfold isolated. rewrite filter_cons. simpl. by case_decide. Qed.

Lemma entangled_cons k v rest :
  entangled ((k, v) :: rest)
  = (if decide (v = []) then [] else [(k, v)]) ++ entangled rest.
Proof.
  unfold entangled. rewrite filter_cons. simpl.
  destruct (decide (v = [])), (decide (v ≠ [])); done.
Qed.

Lemma isolated_sublist friends : isolated friends `sublist_of` keys friends.
Proof. unfold keys, isolated. apply fmap_sublist, sublist_filter. Qed.

Lemma no_dislikes_loop_spec friends rest no_dislikes new_friends :
  (∀ k v, (k, v) ∈ rest → getitem friends k = Some v) →
  NoDup (keys new_friends ++ keys rest) →
  no_dislikes_loop friends (keys rest) no_dislikes new_friends
  = Some (no_dislikes ++ isolated rest, new_friends ++ entangled rest).
Proof.
  revert no_dislikes new_friends.
  induction rest as [|[k v] rest IH]; intros no_dislikes new_friends Hget Hnd.
  - simpl. by rewrite !app_nil_r.
  - cbn [keys fmap list_fmap fst no_dislikes_loop].
    rewrite (Hget k v) by left. simpl.
    rewrite isolated_cons, entangled_cons.
    assert (k ∉ keys new_friends) as Hk.
    { apply NoDup_app in Hnd as (_ & Hdisj & _). intros Hin.
      apply (Hdisj k Hin). left. }
    case_decide as Hv.
    + rewrite (app_assoc no_dislikes [k]). apply IH.
      * intros k' v' Hin. apply Hget. by right.
      * rewrite NoDup_app in Hnd |- *. destruct Hnd as (H1 & H2 & H3).
        split_and!; [done| |by apply NoDup_cons in H3 as [_ ?]].
        intros x Hx Hx'. apply (H2 x Hx). by right.
    + rewrite setitem_fresh by done.
      rewrite (app_assoc new_friends [(k, v)]). apply IH.
      * intros k' v' Hin. apply Hget. by right.
      * unfold keys in *. rewrite fmap_app. simpl.
        rewrite <- app_assoc. done.
Qed.

(** The isolated guests are those whose own list is empty; the reduced
    mapping keeps the other entries as they are, in their order. *)
Lemma filter_no_dislikes_spec friends :
  dict_wf friends →
  filter_no_dislikes friends = Some (isolated friends, entangled friends).
Proof.
  intros Hwf. unfold filter_no_dislikes.
  rewrite (no_dislikes_loop_spec friends friends [] []); [done| |done].
  intros k v Hin. by apply getitem_wf.
Qed.

(** ** The selection loop *)

Lemma select_loop_spec good_subsets invite_list :
  (select_loop good_subsets invite_list = invite_list ∧
   ∀ x, x ∈ good_subsets → length x ≤ length invite_list) ∨
  (length invite_list < length (select_loop good_subsets invite_list) ∧
   first_longest (select_loop good_subsets invite_list) good_subsets).
Proof.
  revert invite_list.
  induction good_subsets as [|x rest IH]; intros invite_list; simpl.
  - left. split; [done|]. by intros x ?%elem_of_nil.
  - case_decide as Hlt.
    + right. destruct (IH x) as [[Heq Hle]|[Hlt' (l1 & l2 & Hl & H1 & H2)]].
      * rewrite Heq. split; [done|]. exists [], rest. split_and!; [done| |done].
        by intros y ?%elem_of_nil.
      * split; [lia|]. exists (x :: l1), l2. split_and!; [by rewrite <- app_comm_cons, <- Hl| |done].
        intros y [->|Hy]%elem_of_cons; [done|by apply H1].
    + destruct (IH invite_list) as [[Heq Hle]|[Hlt' (l1 & l2 & Hl & H1 & H2)]].
      * left. split; [done|]. intros y [->|Hy]%elem_of_cons; [lia|by apply Hle].
      * right. split; [done|]. exists (x :: l1), l2.
        split_and!; [by rewrite <- app_comm_cons, <- Hl| |done].
        intros y [->|Hy]%elem_of_cons; [lia|by apply H1].
Qed.

Lemma valid_nil E : valid E [].
Proof. intros p _ [?%elem_of_nil _]. done. Qed.

Lemma bit_enumeration_head l : ∃ tl, bit_enumeration l = [] :: tl.
Proof.
  unfold bit_enumeration.
  assert (2 ^ length l ≠ 0) as Hpow by (apply Nat.pow_nonzero; lia).
  destruct (2 ^ length l) as [|m]; [done|]. simpl.
  rewrite subset_of_bits_0. eauto.
Qed.

(** Over the filtered enumeration, which starts with the empty subset, the
    loop returns the first subset of greatest length. *)
Lemma select_loop_enumeration E l :
  first_longest (select_loop (filter (valid E) (bit_enumeration l)) [])
    (filter (valid E) (bit_enumeration l)).
Proof.
  destruct (select_loop_spec (filter (valid E) (bit_enumeration l)) [])
    as [[Heq Hle]|[_ H]]; [|done].
  rewrite Heq. destruct (bit_enumeration_head l) as [tl Htl].
  rewrite Htl in Hle |- *. rewrite filter_cons_True in Hle |- * by apply valid_nil.
  exists [], (filter (valid E) tl). split_and!; [done| |].
  - by intros x ?%elem_of_nil.
  - intros x Hx. apply Hle. by right.
Qed.

Lemma first_longest_elem_of r l : first_longest r l → r ∈ l.
Proof. intros (l1 & l2 & -> & _). apply elem_of_app. right. left. Qed.

Lemma first_longest_longest r l x : first_longest r l → x ∈ l → length x ≤ length r.
Proof.
  intros (l1 & l2 & -> & H1 & H2) [Hx|[->|Hx]%elem_of_cons]%elem_of_app.
  - apply H1 in Hx. lia.
  - done.
  - by apply H2.
Qed.

(** ** The two selection functions in closed form *)

Lemma invite_to_dinner_spec iter friends E :
  iteration_order iter → find_dislikes friends = Some E →
  invite_to_dinner iter friends
  = Some (select_loop (filter (valid E) (bit_enumeration (keys friends))) []).
Proof.
  intros Hiter HE. unfold invite_to_dinner.
  rewrite generate_all_subsets_spec. simpl.
  by rewrite (filter_bad_invites_spec iter _ friends E).
Qed.

Lemma invite_to_dinner_optimized_spec iter friends E :
  iteration_order iter → dict_wf friends → find_dislikes friends = Some E →
  invite_to_dinner_optimized iter friends
  = Some (select_loop
            (filter (valid E) (bit_enumeration (keys (entangled friends)))) []
          ++ isolated friends).
Proof.
  intros Hiter Hwf HE. unfold invite_to_dinner_optimized.
  rewrite filter_no_dislikes_spec by done. simpl.
  rewrite generate_all_subsets_spec. simpl.
  by rewrite (filter_bad_invites_spec iter _ friends E).
Qed.

(** ** What "no dislike edge" means on the input mapping *)

Lemma valid_lists friends E s :
  find_dislikes friends = Some E →
  valid E s ↔ ∀ a b, lists friends a b → ¬ (a ∈ s ∧ b ∈ s).
Proof.
  intros HE. split.
  - intros Hv a b Hab [Ha Hb].
    destruct (find_dislikes_cover _ _ _ _ HE Hab) as [Hin|Hin];
      apply (Hv _ Hin); by split.
  - intros Hno [a b] Hin Hc. apply (Hno a b); [|done].
    by eapply find_dislikes_elem.
Qed.

Lemma valid_singleton friends E x :
  find_dislikes friends = Some E → ¬ lists friends x x → valid E [x].
Proof.
  intros HE Hx. apply (valid_lists _ _ _ HE).
  intros a b Hab [->%list_elem_of_singleton ->%list_elem_of_singleton]. done.
Qed.

Lemma sublist_same_elements (l s1 s2 : list string) :
  NoDup l → s1 `sublist_of` l → s2 `sublist_of` l →
  (∀ x, x ∈ s1 ↔ x ∈ s2) → s1 = s2.
Proof.
  revert s1 s2. induction l as [|x l IH]; intros s1 s2 Hnd H1 H2 Heq.
  - apply sublist_nil_r in H1, H2. by subst.
  - apply NoDup_cons in Hnd as [Hx Hnd].
    apply sublist_cons_r in H1 as [H1|(s1' & -> & H1)],
      H2 as [H2|(s2' & -> & H2)].
    + by apply IH.
    + destruct Hx. eapply elem_of_sublist; [|exact H1]. apply Heq. left.
    + destruct Hx. eapply elem_of_sublist; [|exact H2]. apply Heq. left.
    + f_equal. apply IH; [done..|]. intros y.
      assert (∀ s, s `sublist_of` l → y ∈ x :: s → y ≠ x → y ∈ s) as Hcut.
      { intros s _ [->|?]%elem_of_cons ?; done. }
      split; intros Hy.
      * apply (Hcut s2' H2); [apply Heq; by right|].
        intros ->. apply Hx. by eapply elem_of_sublist.
      * apply (Hcut s1' H1); [apply Heq; by right|].
        intros ->. apply Hx. by eapply elem_of_sublist.
Qed.

Lemma isolated_entangled_keys friends :
  keys (entangled friends) ++ isolated friends ≡ₚ keys friends.
Proof.
  induction friends as [|[k v] rest IH]; [done|].
  rewrite isolated_cons, entangled_cons. unfold keys in *.
  rewrite fmap_app. case_decide; simpl.
  - rewrite <- IH. by rewrite <- Permutation_middle.
  - by rewrite IH.
Qed.

(** ** The selected list is a largest valid list *)

Lemma valid_subseteq E (s s' : list string) :
  (∀ x, x ∈ s' → x ∈ s) → valid E s → valid E s'.
Proof. intros Hsub Hv p Hp [H1 H2]. apply (Hv p Hp). split; auto. Qed.

Lemma selected_elem_of E l :
  select_loop (filter (valid E) (bit_enumeration l)) []
  ∈ filter (valid E) (bit_enumeration l).
Proof. apply first_longest_elem_of, select_loop_enumeration. Qed.

Lemma selected_sublist E l :
  select_loop (filter (valid E) (bit_enumeration l)) [] `sublist_of` l.
Proof.
  pose proof (selected_elem_of E l) as [_ H]%list_elem_of_filter.
  by apply elem_of_bit_enumeration.
Qed.

Lemma selected_valid E l :
  valid E (select_loop (filter (valid E) (bit_enumeration l)) []).
Proof. by pose proof (selected_elem_of E l) as [? _]%list_elem_of_filter. Qed.

(** No valid list of distinct guests drawn from [l] is longer than the
    selected one. *)
Lemma selected_longest E (l s : list string) :
  NoDup l → NoDup s → (∀ x, x ∈ s → x ∈ l) → valid E s →
  length s ≤ length (select_loop (filter (valid E) (bit_enumeration l)) []).
Proof.
  intros Hl Hs Hsub Hv.
  assert (filter (.∈ s) l ≡ₚ s) as Hperm.
  { apply NoDup_Permutation; [by apply NoDup_filter|done|].
    intros x. rewrite list_elem_of_filter. split; [by intros [? _]|auto]. }
  rewrite <- Hperm.
  apply (first_longest_longest _ _ _ (select_loop_enumeration E l)).
  apply list_elem_of_filter. split.
  - eapply valid_subseteq; [|done]. by intros x [? _]%list_elem_of_filter.
  - apply elem_of_bit_enumeration, sublist_filter.
Qed.

Lemma isolated_getitem friends x :
  dict_wf friends → x ∈ isolated friends → getitem friends x = Some [].
Proof.
  intros Hwf Hx. apply list_elem_of_fmap in Hx as ([k v] & -> & Hin).
  apply list_elem_of_filter in Hin as [Hv Hin].
  simpl in *. subst v. by apply getitem_wf.
Qed.

(** With reciprocal listing, a guest with an empty list is in no edge. *)
Lemma isolated_no_edge friends E a b :
  dict_wf friends → reciprocal friends → find_dislikes friends = Some E →
  (a, b) ∈ E → (a ∉ isolated friends) ∧ (b ∉ isolated friends).
Proof.
  intros Hwf Hrec HE Hab. apply (find_dislikes_elem _ _ _ _ HE) in Hab.
  assert (∀ x y, lists friends x y → x ∉ isolated friends) as Hno.
  { intros x y (ds & Hds & Hy) Hx.
    rewrite (isolated_getitem _ _ Hwf Hx) in Hds. injection Hds as <-.
    by apply elem_of_nil in Hy. }
  split; [by eapply Hno|]. intros Hb. eapply Hno; [|exact Hb].
  apply Hrec; [done|]. eapply elem_of_sublist; [done|apply isolated_sublist].
Qed.

(** X15.  With reciprocal listing the two selection functions return valid
    lists of the same length, and no valid list of distinct guests is
    longer. *)
Lemma reciprocal_selection_agrees iter friends :
  iteration_order iter → dict_wf friends → reciprocal friends →
  ∃ E r r', find_dislikes friends = Some E ∧
    invite_to_dinner iter friends = Some r ∧
    invite_to_dinner_optimized iter friends = Some r' ∧
    length r = length r' ∧ valid E r ∧ valid E r' ∧
    (∀ s, NoDup s → (∀ x, x ∈ s → x ∈ keys friends) → valid E s →
          length s ≤ length r).
Proof.
  intros Hiter Hwf Hrec. destruct (find_dislikes_total friends) as [E HE].
  exists E. eexists _, _. split; [done|].
  split; [by apply invite_to_dinner_spec|].
  split; [by apply invite_to_dinner_optimized_spec|].
  set (r := select_loop (filter (valid E) (bit_enumeration (keys friends))) []).
  set (b := select_loop
              (filter (valid E) (bit_enumeration (keys (entangled friends)))) []).
  pose proof (isolated_entangled_keys friends) as Hperm.
  assert (NoDup (keys (entangled friends) ++ isolated friends)) as Hnd
    by (by rewrite Hperm).
  assert (b ++ isolated friends
          `sublist_of` keys (entangled friends) ++ isolated friends) as Hsub
    by (apply sublist_app; [apply selected_sublist|done]).
  assert (valid E (b ++ isolated friends)) as Hvalid.
  { intros [x y] Hp [Hx Hy]. simpl in *.
    destruct (isolated_no_edge _ _ _ _ Hwf Hrec HE Hp) as [Hxi Hyi].
    apply elem_of_app in Hx as [Hx|Hx]; [|done].
    apply elem_of_app in Hy as [Hy|Hy]; [|done].
    by apply (selected_valid E (keys (entangled friends)) (x, y) Hp). }
  assert (length (b ++ isolated friends) ≤ length r) as Hle.
  { apply selected_longest; [done| | |done].
    - by eapply sublist_NoDup.
    - intros x Hx. rewrite <- Hperm. by eapply elem_of_sublist. }
  assert (length r ≤ length (b ++ isolated friends)) as Hge.
  { pose proof (selected_sublist E (keys friends)) as Hr. fold r in Hr.
    pose proof (sublist_NoDup _ _ Hwf Hr) as Hrnd.
    rewrite <- (filter_app_complement (.∈ keys (entangled friends)) r).
    rewrite !length_app. apply Nat.add_le_mono.
    - apply selected_longest.
      + by apply NoDup_app in Hnd as (? & _).
      + by apply NoDup_filter.
      + by intros x [? _]%list_elem_of_filter.
      + eapply valid_subseteq; [|apply (selected_valid E (keys friends))].
        by intros x [_ ?]%list_elem_of_filter.
    - apply submseteq_length, NoDup_submseteq; [by apply NoDup_filter|].
      intros x [Hx Hin]%list_elem_of_filter.
      assert (x ∈ keys (entangled friends) ++ isolated friends) as Hk.
      { rewrite Hperm. by eapply elem_of_sublist. }
      by apply elem_of_app in Hk as [?|?]. }
  split_and!; [lia|apply selected_valid|done|].
  intros s Hs Hsk Hv. by apply selected_longest.
Qed.

(** ** The examples of the source and of the specification *)

Example find_dislikes_friends_2 :
  find_dislikes friends_2 = Some {[ ("Alice", "Bob"); ("Bob", "Eve") ]}.
Proof. by vm_compute. Qed.

Example generate_all_subsets_friends_2 :
  generate_all_subsets friends_2
  = Some [[]; ["Eve"]; ["Bob"]; ["Bob"; "Eve"]; ["Alice"]; ["Alice"; "Eve"];
          ["Alice"; "Bob"]; ["Alice"; "Bob"; "Eve"]].
Proof. by vm_compute. Qed.

Example filter_bad_invites_docstring :
  filter_bad_invites elements
    [[]; ["Eve"]; ["Bob"]; ["Bob"; "Eve"]; ["Alice"]; ["Alice"; "Eve"];
     ["Alice"; "Bob"]; ["Alice"; "Bob"; "Eve"]]
    [("Alice", ["Bob"]); ("Bob", ["Alice"]); ("Eve", [])]
  = Some [[]; ["Eve"]; ["Bob"]; ["Bob"; "Eve"]; ["Alice"]; ["Alice"; "Eve"]].
Proof. by vm_compute. Qed.

Example filter_no_dislikes_friends_1 :
  filter_no_dislikes friends_1
  = Some (["Cleo"; "Don"],
          [("Alice", ["Bob"]); ("Bob", ["Alice"; "Eve"]); ("Eve", ["Bob"])]).
Proof. by vm_compute. Qed.

Example invite_friends_1 :
  invite_to_dinner elements friends_1 = Some ["Alice"; "Cleo"; "Don"; "Eve"] ∧
  invite_to_dinner_optimized elements friends_1
  = Some ["Alice"; "Eve"; "Cleo"; "Don"].
Proof. split; by vm_compute. Qed.

Example invite_friends_3 :
  length <$> invite_to_dinner elements friends_3 = Some 5 ∧
  length <$> invite_to_dinner_optimized elements friends_3 = Some 5.
Proof. split; by vm_compute. Qed.

Example reciprocal_friends_2 : reciprocal friends_2.
Proof.
  intros a b (ds & Hds & Hb) _. unfold friends_2 in Hds. simpl in Hds.
  repeat case_decide; simplify_eq;
    repeat (apply elem_of_cons in Hb as [->|Hb]);
    try (by apply elem_of_nil in Hb);
    (eexists; split; [by vm_compute|]); set_solver.
Qed.

(** * The claims *)

(** C3, at the mapping [{'Bob': ['Alice'], 'Alice': ['Bob']}].  Its keys are
    distinct and its two guests list each other, so every listed dislike is
    a key.  [find_dislikes] builds each tuple as [(person, dislike)] and
    never sorts it: it returns the single tuple ('Bob', 'Alice'), which is
    not in alphabetical order, so the returned set is not in the canonical
    form that the docstring describes. *)
Theorem find_dislikes_unsorted_tuple :
  dict_wf friends_unsorted ∧ mutual friends_unsorted ∧
  find_dislikes friends_unsorted = Some {[ ("Bob", "Alice") ]} ∧
  ¬ tuple_sorted ("Bob", "Alice") ∧
  ¬ edges_canonical friends_unsorted {[ ("Bob", "Alice") ]}.
Proof.
  assert (¬ tuple_sorted ("Bob", "Alice")) as Hns by (by vm_compute).
  split_and!.
  - apply (bool_decide_unpack _). by vm_compute.
  - intros a b (ds & Hds & Hb). unfold friends_unsorted in Hds. simpl in Hds.
    repeat case_decide; simplify_eq;
      apply list_elem_of_singleton in Hb as ->;
      (eexists; split; [by vm_compute|]); by apply list_elem_of_singleton.
  - by vm_compute.
  - done.
  - intros (_ & Hsorted & _). apply Hns, Hsorted. by apply elem_of_singleton.
Qed.

(** A listed dislike that is not a key is not checked anywhere: on
    [{'Alice': ['Bob']}] the returned tuple has the endpoint Bob, which is
    not a key of the mapping. *)
Lemma find_dislikes_endpoint_not_key :
  find_dislikes friends_dangling = Some {[ ("Alice", "Bob") ]} ∧
  ¬ edges_canonical friends_dangling {[ ("Alice", "Bob") ]}.
Proof.
  split; [by vm_compute|].
  intros (_ & _ & Hkeys).
  assert ("Bob" ∉ keys friends_dangling) as HB
    by (apply (bool_decide_unpack _); by vm_compute).
  destruct (Hkeys ("Alice", "Bob")) as [_ ?]; [by apply elem_of_singleton|done].
Qed.

(** C4.  For a mapping with N keys, [generate_all_subsets] returns 2^N
    subsets of the key set, pairwise distinct (also as sets), among them the
    empty subset and the subset of all guests, and the subset at position [i]
    is the one whose guests are picked by the bits of [i]. *)
Theorem generate_all_subsets_power_set friends :
  dict_wf friends →
  ∃ all_subsets, generate_all_subsets friends = Some all_subsets ∧
    length all_subsets = 2 ^ length friends ∧
    NoDup all_subsets ∧
    (∀ i j s t, all_subsets !! i = Some s → all_subsets !! j = Some t →
                (∀ x, x ∈ s ↔ x ∈ t) → i = j) ∧
    (∀ s, s ∈ all_subsets → s `sublist_of` keys friends) ∧
    all_subsets !! 0 = Some [] ∧
    all_subsets !! (2 ^ length friends - 1) = Some (keys friends) ∧
    (∀ i, i < 2 ^ length friends →
          all_subsets !! i = Some (subset_of_bits (keys friends) i)).
Proof.
  intros Hwf. exists (bit_enumeration (keys friends)).
  assert (length (keys friends) = length friends) as Hlen
    by (unfold keys; by rewrite length_fmap).
  assert (0 < 2 ^ length friends) as Hpos
    by (apply Nat.neq_0_lt_0, Nat.pow_nonzero; lia).
  pose proof (NoDup_bit_enumeration _ Hwf) as Hnd.
  split_and!.
  - apply generate_all_subsets_spec.
  - by rewrite length_bit_enumeration, Hlen.
  - done.
  - intros i j s t Hi Hj Hst.
    assert (s = t) as ->.
    { apply (sublist_same_elements (keys friends)); [done| | |done];
        apply elem_of_bit_enumeration; by eapply list_elem_of_lookup_2. }
    by eapply NoDup_lookup.
  - intros s. apply elem_of_bit_enumeration.
  - rewrite lookup_bit_enumeration by (rewrite Hlen; lia).
    by rewrite subset_of_bits_0.
  - rewrite lookup_bit_enumeration by (rewrite Hlen; lia).
    by rewrite <- Hlen, subset_of_bits_ones.
  - intros i Hi. apply lookup_bit_enumeration. by rewrite Hlen.
Qed.

Lemma generate_all_subsets_power_set_witness :
  ∃ all_subsets, generate_all_subsets friends_2 = Some all_subsets ∧
    length all_subsets = 2 ^ length friends_2 ∧
    NoDup all_subsets ∧
    (∀ i j s t, all_subsets !! i = Some s → all_subsets !! j = Some t →
                (∀ x, x ∈ s ↔ x ∈ t) → i = j) ∧
    (∀ s, s ∈ all_subsets → s `sublist_of` keys friends_2) ∧
    all_subsets !! 0 = Some [] ∧
    all_subsets !! (2 ^ length friends_2 - 1) = Some (keys friends_2) ∧
    (∀ i, i < 2 ^ length friends_2 →
          all_subsets !! i = Some (subset_of_bits (keys friends_2) i)).
Proof.
  apply (generate_all_subsets_power_set friends_2).
  apply (bool_decide_unpack _). by vm_compute.
Defined.

(** C5, as amended.  [filter_bad_invites] returns exactly the input subsets
    that contain no edge of [find_dislikes(friends)] (no listed pair with
    both guests present), in the order of the input; every subset of size 0
    is kept, and a subset of size 1 is kept when its guest does not list
    itself among its own dislikes. *)
Theorem filter_bad_invites_keeps_valid iter all_subsets friends :
  iteration_order iter →
  ∃ E good, find_dislikes friends = Some E ∧
    filter_bad_invites iter all_subsets friends = Some good ∧
    good = filter (valid E) all_subsets ∧
    (∀ s, valid E s ↔ ∀ a b, lists friends a b → ¬ (a ∈ s ∧ b ∈ s)) ∧
    (∀ s, s ∈ all_subsets → length s = 0 → s ∈ good) ∧
    (∀ x, [x] ∈ all_subsets → ¬ lists friends x x → [x] ∈ good).
Proof.
  intros Hiter. destruct (find_dislikes_total friends) as [E HE].
  exists E, (filter (valid E) all_subsets). split_and!.
  - done.
  - by apply filter_bad_invites_spec.
  - done.
  - intros s. by apply valid_lists.
  - intros s Hs ->%nil_length_inv. apply list_elem_of_filter.
    split; [apply valid_nil|done].
  - intros x Hx Hself. apply list_elem_of_filter.
    split; [by eapply valid_singleton|done].
Qed.

Lemma filter_bad_invites_keeps_valid_witness :
  ∃ E good, find_dislikes friends_2 = Some E ∧
    filter_bad_invites elements [[]; ["Bob"; "Eve"]; ["Eve"]] friends_2
      = Some good ∧
    good = filter (valid E) [[]; ["Bob"; "Eve"]; ["Eve"]] ∧
    (∀ s, valid E s ↔ ∀ a b, lists friends_2 a b → ¬ (a ∈ s ∧ b ∈ s)) ∧
    (∀ s, s ∈ [[]; ["Bob"; "Eve"]; ["Eve"]] → length s = 0 → s ∈ good) ∧
    (∀ x, [x] ∈ [[]; ["Bob"; "Eve"]; ["Eve"]] → ¬ lists friends_2 x x →
          [x] ∈ good).
Proof.
  apply (filter_bad_invites_keeps_valid elements
           [[]; ["Bob"; "Eve"]; ["Eve"]] friends_2).
  intros s. reflexivity.
Defined.

(** C5 as stated fails: when a guest lists itself, the subset of size 1 that
    holds this guest is removed. *)
Lemma filter_bad_invites_drops_singleton :
  find_dislikes friends_self = Some {[ ("Ann", "Ann") ]} ∧
  filter_bad_invites elements [["Ann"]] friends_self = Some [] ∧
  length ["Ann"] = 1.
Proof. split_and!; by vm_compute. Qed.



(** C8.  On the empty mapping both selection functions return the empty
    list, and neither raises. *)
Theorem invite_empty_mapping iter :
  iteration_order iter →
  invite_to_dinner iter [] = Some [] ∧
  invite_to_dinner_optimized iter [] = Some [].
Proof.
  intros Hiter.
  rewrite (invite_to_dinner_spec iter [] ∅), 
    (invite_to_dinner_optimized_spec iter [] ∅); [|done|apply NoDup_nil_2|done..].
  split; by vm_compute.
Qed.

Lemma invite_empty_mapping_witness :
  invite_to_dinner elements [] = Some [] ∧
  invite_to_dinner_optimized elements [] = Some [].
Proof.
  apply (invite_empty_mapping elements).
  intros s. reflexivity.
Defined.

(** C9.  The result of either selection function does not depend on the
    order in which Python happens to iterate over the set of edges: two runs
    on the same mapping return the same list, hence lists of the same
    length. *)
Theorem selection_deterministic iter1 iter2 friends :
  iteration_order iter1 → iteration_order iter2 → dict_wf friends →
  ∃ r r',
    invite_to_dinner iter1 friends = Some r ∧
    invite_to_dinner iter2 friends = Some r ∧
    invite_to_dinner_optimized iter1 friends = Some r' ∧
    invite_to_dinner_optimized iter2 friends = Some r' ∧
    ∀ o1 o2 o1' o2',
      invite_to_dinner iter1 friends = Some o1 →
      invite_to_dinner iter2 friends = Some o2 →
      invite_to_dinner_optimized iter1 friends = Some o1' →
      invite_to_dinner_optimized iter2 friends = Some o2' →
      length o1 = length o2 ∧ o1 = o2 ∧ length o1' = length o2' ∧ o1' = o2'.
Proof.
  intros H1 H2 Hwf. destruct (find_dislikes_total friends) as [E HE].
  rewrite !(invite_to_dinner_spec _ friends E),
    !(invite_to_dinner_optimized_spec _ friends E) by done.
  eexists _, _. split_and!; [done..|].
  intros o1 o2 o1' o2' [= <-] [= <-] [= <-] [= <-]. done.
Qed.

Lemma selection_deterministic_witness :
  ∃ r r',
    invite_to_dinner elements friends_1 = Some r ∧
    invite_to_dinner (reverse ∘ elements) friends_1 = Some r ∧
    invite_to_dinner_optimized elements friends_1 = Some r' ∧
    invite_to_dinner_optimized (reverse ∘ elements) friends_1 = Some r' ∧
    ∀ o1 o2 o1' o2',
      invite_to_dinner elements friends_1 = Some o1 →
      invite_to_dinner (reverse ∘ elements) friends_1 = Some o2 →
      invite_to_dinner_optimized elements friends_1 = Some o1' →
      invite_to_dinner_optimized (reverse ∘ elements) friends_1 = Some o2' →
      length o1 = length o2 ∧ o1 = o2 ∧ length o1' = length o2' ∧ o1' = o2'.
Proof.
  apply (selection_deterministic elements (reverse ∘ elements) friends_1).
  - intros s. reflexivity.
  - intros s. simpl. apply reverse_Permutation.
  - apply (bool_decide_unpack _). by vm_compute.
Defined.

(** C10.  Neither returned list names a guest twice, and every guest in
    either list is a key of the input mapping. *)
Theorem invite_lists_distinct_keys iter friends :
  iteration_order iter → dict_wf friends →
  ∃ r r',
    invite_to_dinner iter friends = Some r ∧
    invite_to_dinner_optimized iter friends = Some r' ∧
    NoDup r ∧ NoDup r' ∧
    (∀ x, x ∈ r → x ∈ keys friends) ∧
    (∀ x, x ∈ r' → x ∈ keys friends).
Proof.
  intros Hiter Hwf. destruct (find_dislikes_total friends) as [E HE].
  rewrite (invite_to_dinner_spec iter friends E),
    (invite_to_dinner_optimized_spec iter friends E) by done.
  eexists _, _. split; [done|]. split; [done|].
  pose proof (selected_sublist E (keys friends)) as Hr.
  pose proof (selected_sublist E (keys (entangled friends))) as Hb.
  assert (select_loop
            (filter (valid E) (bit_enumeration (keys (entangled friends)))) []
          ++ isolated friends
          `sublist_of` keys (entangled friends) ++ isolated friends) as Hsub
    by (by apply sublist_app).
  split_and!.
  - by eapply sublist_NoDup.
  - eapply sublist_NoDup; [|exact Hsub].
    by rewrite isolated_entangled_keys.
  - intros x Hx. by eapply elem_of_sublist.
  - intros x Hx. rewrite <- isolated_entangled_keys.
    apply (elem_of_sublist _ _ _ Hx Hsub).
Qed.

Lemma invite_lists_distinct_keys_witness :
  ∃ r r',
    invite_to_dinner elements friends_1 = Some r ∧
    invite_to_dinner_optimized elements friends_1 = Some r' ∧
    NoDup r ∧ NoDup r' ∧
    (∀ x, x ∈ r → x ∈ keys friends_1) ∧
    (∀ x, x ∈ r' → x ∈ keys friends_1).
Proof.
  apply (invite_lists_distinct_keys elements friends_1).
  - intros s. reflexivity.
  - apply (bool_decide_unpack _). by vm_compute.
Defined.

(** C2, at the mapping [{'Alice': ['Bob'], 'Bob': []}], which lists the
    dislike in one direction only.  Bob has an empty list, so
    [filter_no_dislikes] puts him among the guests without dislikes although
    Alice lists him. *)
Theorem filter_no_dislikes_one_way :
  filter_no_dislikes friends_one_way = Some (["Bob"], [("Alice", ["Bob"])]) ∧
  lists friends_one_way "Alice" "Bob".
Proof.
  split; [by vm_compute|]. exists ["Bob"]. split; [by vm_compute|left].
Qed.

(** C1, at the same mapping: [invite_to_dinner] returns a list of length 1,
    [invite_to_dinner_optimized] one of length 2 that holds both endpoints
    of the edge (Alice, Bob). *)
Theorem invite_one_way iter :
  iteration_order iter →
  find_dislikes friends_one_way = Some {[ ("Alice", "Bob") ]} ∧
  invite_to_dinner iter friends_one_way = Some ["Bob"] ∧
  invite_to_dinner_optimized iter friends_one_way = Some ["Alice"; "Bob"] ∧
  ¬ valid {[ ("Alice", "Bob") ]} ["Alice"; "Bob"].
Proof.
  intros Hiter.
  assert (find_dislikes friends_one_way = Some {[ ("Alice", "Bob") ]}) as HE
    by (by vm_compute).
  assert (dict_wf friends_one_way) as Hwf
    by (apply (bool_decide_unpack _); by vm_compute).
  rewrite (invite_to_dinner_spec iter _ _ Hiter HE),
    (invite_to_dinner_optimized_spec iter _ _ Hiter Hwf HE).
  split_and!; [done|by vm_compute|by vm_compute|].
  apply (bool_decide_unpack _). by vm_compute.
Qed.

Lemma invite_one_way_witness :
  find_dislikes friends_one_way = Some {[ ("Alice", "Bob") ]} ∧
  invite_to_dinner elements friends_one_way = Some ["Bob"] ∧
  invite_to_dinner_optimized elements friends_one_way
    = Some ["Alice"; "Bob"] ∧
  ¬ valid {[ ("Alice", "Bob") ]} ["Alice"; "Bob"].
Proof.
  apply (invite_one_way elements).
  intros s. reflexivity.
Defined.

(** ** The functions on references *)

Lemma store_remove_loop_spec bad_invites good_invites h l l' :
  Store.read_list h good_invites = Some l →
  remove_loop bad_invites l = Some l' →
  Store.remove_loop bad_invites good_invites h
  = Some (<[good_invites := Store.OList l']> h).
Proof.
  revert h l. induction bad_invites as [|set bad IH]; intros h l Hread; simpl.
  - intros [= <-]. f_equal. symmetry. apply insert_id.
    unfold Store.read_list in Hread.
    destruct (h !! good_invites) as [[]|]; by simplify_eq.
  - rewrite Hread. simpl. case_decide as Hin.
    + destruct (list_remove set l) as [l1|]; [simpl|done]. intros Hloop.
      rewrite (IH _ l1); [by rewrite insert_insert_eq| |done].
      unfold Store.read_list. by rewrite lookup_insert_eq.
    + simpl. intros Hloop. by apply (IH h l).
Qed.

Lemma store_read_list h a l :
  h !! a = Some (Store.OList l) → Store.read_list h a = Some l.
Proof. unfold Store.read_list. by intros ->. Qed.

Lemma store_read_dict h f d :
  h !! f = Some (Store.ODict d) → Store.read_dict h f = Some d.
Proof. unfold Store.read_dict. by intros ->. Qed.

(** The call returns the reference it was given, and the list behind it has
    lost the subsets that contain an edge. *)
Lemma store_filter_bad_invites_spec iter h a f l d E :
  iteration_order iter →
  h !! a = Some (Store.OList l) → h !! f = Some (Store.ODict d) →
  find_dislikes d = Some E →
  Store.filter_bad_invites iter a f h
  = Some (a, <[a := Store.OList (filter (valid E) l)]> h).
Proof.
  intros Hiter Ha Hf HE. unfold Store.filter_bad_invites.
  rewrite (store_read_list _ _ _ Ha), (store_read_dict _ _ _ Hf). simpl.
  pose proof (filter_bad_invites_spec iter l d E Hiter HE) as Hspec.
  unfold filter_bad_invites in Hspec.
  destruct (collect_loop iter d l []) as [bad|]; [simpl in *|done].
  rewrite (store_remove_loop_spec bad a h l (filter (valid E) l));
    [done|by apply store_read_list|done].
Qed.

Lemma alloc_fresh (o : Store.obj) (h : gmap nat Store.obj) :
  h !! (Store.alloc o h).1 = None.
Proof. simpl. apply not_elem_of_dom, is_fresh. Qed.

Lemma store_generate_all_subsets_spec h f d :
  h !! f = Some (Store.ODict d) →
  ∃ a, Store.generate_all_subsets f h
       = Some (a, <[a := Store.OList (bit_enumeration (keys d))]> h) ∧
       h !! a = None.
Proof.
  intros Hf. unfold Store.generate_all_subsets.
  rewrite (store_read_dict _ _ _ Hf). simpl.
  rewrite generate_all_subsets_spec. simpl.
  eexists. split; [reflexivity|]. apply (alloc_fresh (Store.OList [])).
Qed.

Lemma store_filter_no_dislikes_spec h f d :
  dict_wf d → h !! f = Some (Store.ODict d) →
  ∃ b, Store.filter_no_dislikes f h
       = Some ((isolated d, b), <[b := Store.ODict (entangled d)]> h) ∧
       h !! b = None.
Proof.
  intros Hwf Hf. unfold Store.filter_no_dislikes.
  rewrite (store_read_dict _ _ _ Hf). simpl.
  rewrite filter_no_dislikes_spec by done. simpl.
  eexists. split; [reflexivity|]. apply (alloc_fresh (Store.OList [])).
Qed.

Lemma store_invite_to_dinner_spec iter h f d :
  iteration_order iter → h !! f = Some (Store.ODict d) →
  ∃ r h', Store.invite_to_dinner iter f h = Some (r, h') ∧
    invite_to_dinner iter d = Some r ∧ h ⊆ h'.
Proof.
  intros Hiter Hf. destruct (find_dislikes_total d) as [E HE].
  unfold Store.invite_to_dinner.
  destruct (store_generate_all_subsets_spec h f d Hf) as (a & -> & Ha). simpl.
  assert (a ≠ f) as Hne by (intros ->; congruence).
  rewrite (store_filter_bad_invites_spec iter _ a f
             (bit_enumeration (keys d)) d E Hiter);
    [|by rewrite lookup_insert_eq|by rewrite lookup_insert_ne|done].
  simpl. rewrite insert_insert_eq.
  rewrite (store_read_list _ a (filter (valid E) (bit_enumeration (keys d))))
    by (by rewrite lookup_insert_eq).
  simpl. eexists _, _. split_and!; [done| |by apply insert_subseteq].
  by apply invite_to_dinner_spec.
Qed.

Lemma store_invite_to_dinner_optimized_spec iter h f d :
  iteration_order iter → dict_wf d → h !! f = Some (Store.ODict d) →
  ∃ r h', Store.invite_to_dinner_optimized iter f h = Some (r, h') ∧
    invite_to_dinner_optimized iter d = Some r ∧ h ⊆ h'.
Proof.
  intros Hiter Hwf Hf. destruct (find_dislikes_total d) as [E HE].
  unfold Store.invite_to_dinner_optimized.
  destruct (store_filter_no_dislikes_spec h f d Hwf Hf) as (b & -> & Hb). simpl.
  destruct (store_generate_all_subsets_spec
              (<[b := Store.ODict (entangled d)]> h) b (entangled d))
    as (a & -> & Ha); [by rewrite lookup_insert_eq|]. simpl.
  assert (b ≠ f) as Hbf by (intros ->; congruence).
  assert (a ≠ f) as Haf.
  { intros ->. rewrite lookup_insert_ne in Ha by done. congruence. }
  rewrite (store_filter_bad_invites_spec iter _ a f
             (bit_enumeration (keys (entangled d))) d E Hiter);
    [|by rewrite lookup_insert_eq|by rewrite !lookup_insert_ne|done].
  simpl. rewrite insert_insert_eq.
  rewrite (store_read_list _ a
             (filter (valid E) (bit_enumeration (keys (entangled d)))))
    by (by rewrite lookup_insert_eq).
  simpl. eexists _, _. split_and!; [done|by apply invite_to_dinner_optimized_spec|].
  etrans; [by apply (insert_subseteq h b)|by apply insert_subseteq].
Qed.

(** C7, as amended.  Every function leaves the [friends] mapping as it was,
    and every function but [filter_bad_invites] leaves every object that
    existed before the call as it was.  [filter_bad_invites] returns the list
    object it was given as [all_subsets], from which it has removed the
    subsets that contain an edge (the others stay, in their order); that
    list is as before only when none of its subsets contained an edge. *)
Theorem arguments_after_call iter (h : gmap nat Store.obj) a f l d :
  iteration_order iter → dict_wf d →
  h !! a = Some (Store.OList l) → h !! f = Some (Store.ODict d) →
  ∃ E h', find_dislikes d = Some E ∧
    Store.filter_bad_invites iter a f h = Some (a, h') ∧
    h' !! a = Some (Store.OList (filter (valid E) l)) ∧
    (∀ b, b ≠ a → h' !! b = h !! b) ∧
    h' !! f = Some (Store.ODict d) ∧
    (h' !! a = h !! a ↔ ∀ s, s ∈ l → valid E s) ∧
    Store.find_dislikes f h = Some (E, h) ∧
    (∃ r h1, Store.generate_all_subsets f h = Some (r, h1) ∧ h ⊆ h1) ∧
    (∃ r h1, Store.filter_no_dislikes f h = Some (r, h1) ∧ h ⊆ h1) ∧
    (∃ r h1, Store.invite_to_dinner iter f h = Some (r, h1) ∧
             invite_to_dinner iter d = Some r ∧ h ⊆ h1) ∧
    (∃ r h1, Store.invite_to_dinner_optimized iter f h = Some (r, h1) ∧
             invite_to_dinner_optimized iter d = Some r ∧ h ⊆ h1).
Proof.
  intros Hiter Hwf Ha Hf. destruct (find_dislikes_total d) as [E HE].
  assert (a ≠ f) as Hne by (intros ->; congruence).
  exists E, (<[a := Store.OList (filter (valid E) l)]> h). split_and!.
  - done.
  - by apply (store_filter_bad_invites_spec iter h a f l d E).
  - by rewrite lookup_insert_eq.
  - intros b Hb. by rewrite lookup_insert_ne.
  - by rewrite lookup_insert_ne.
  - rewrite lookup_insert_eq, Ha. split.
    + intros [= Heq] s Hs. rewrite <- Heq in Hs.
      by apply list_elem_of_filter in Hs as [? _].
    + intros Hall. by rewrite filter_all.
  - unfold Store.find_dislikes. rewrite (store_read_dict _ _ _ Hf). simpl.
    by rewrite HE.
  - destruct (store_generate_all_subsets_spec h f d Hf) as (a' & -> & Ha').
    eexists _, _. split; [done|by apply insert_subseteq].
  - destruct (store_filter_no_dislikes_spec h f d Hwf Hf) as (b & -> & Hb).
    eexists _, _. split; [done|by apply insert_subseteq].
  - by apply store_invite_to_dinner_spec.
  - by apply store_invite_to_dinner_optimized_spec.
Qed.

Lemma arguments_after_call_witness :
  ∃ E h', find_dislikes friends_2 = Some E ∧
    Store.filter_bad_invites elements 0 1 Store.heap_0 = Some (0, h') ∧
    h' !! 0 = Some (Store.OList
                      (filter (valid E) [["Alice"]; ["Alice"; "Bob"]])) ∧
    (∀ b, b ≠ 0 → h' !! b = Store.heap_0 !! b) ∧
    h' !! 1 = Some (Store.ODict friends_2) ∧
    (h' !! 0 = Store.heap_0 !! 0 ↔
     ∀ s, s ∈ [["Alice"]; ["Alice"; "Bob"]] → valid E s) ∧
    Store.find_dislikes 1 Store.heap_0 = Some (E, Store.heap_0) ∧
    (∃ r h1, Store.generate_all_subsets 1 Store.heap_0 = Some (r, h1) ∧
             Store.heap_0 ⊆ h1) ∧
    (∃ r h1, Store.filter_no_dislikes 1 Store.heap_0 = Some (r, h1) ∧
             Store.heap_0 ⊆ h1) ∧
    (∃ r h1, Store.invite_to_dinner elements 1 Store.heap_0 = Some (r, h1) ∧
             invite_to_dinner elements friends_2 = Some r ∧
             Store.heap_0 ⊆ h1) ∧
    (∃ r h1, Store.invite_to_dinner_optimized elements 1 Store.heap_0
               = Some (r, h1) ∧
             invite_to_dinner_optimized elements friends_2 = Some r ∧
             Store.heap_0 ⊆ h1).
Proof.
  apply (arguments_after_call elements Store.heap_0 0 1
           [["Alice"]; ["Alice"; "Bob"]] friends_2).
  - intros s. reflexivity.
  - apply (bool_decide_unpack _). by vm_compute.
  - reflexivity.
  - reflexivity.
Defined.

(** C7 as stated fails: the list given as [all_subsets] holds two subsets
    before the call and one after it. *)
Lemma filter_bad_invites_shrinks_argument :
  Store.heap_0 !! 0 = Some (Store.OList [["Alice"]; ["Alice"; "Bob"]]) ∧
  ∃ h', Store.filter_bad_invites elements 0 1 Store.heap_0 = Some (0, h') ∧
        h' !! 0 = Some (Store.OList [["Alice"]]) ∧
        h' !! 0 ≠ Store.heap_0 !! 0.
Proof.
  split; [reflexivity|].
  exists (<[0 := Store.OList [["Alice"]]]> Store.heap_0).
  split_and!; [by vm_compute|reflexivity|by vm_compute].
Qed.

(** * Further properties of the functions *)

(** ** Deciding the conditions on a mapping *)

#[global] Instance lists_dec friends a b : Decision (lists friends a b).
Proof.
  unfold lists. destruct (getitem friends a) as [ds|].
  - destruct (decide (b ∈ ds)) as [Hb|Hb].
    + left. by exists ds.
    + right. by intros (ds' & [= <-] & ?).
  - right. by intros (ds' & ? & ?).
Defined.

Lemma lists_forall (P : string → string → Prop) friends :
  (∀ a b, lists friends a b → P a b) ↔
  Forall (λ a, Forall (P a) (default [] (getitem friends a))) (keys friends).
Proof.
  rewrite Forall_forall. split.
  - intros H a Ha. apply Forall_forall. intros b Hb. apply H. unfold lists.
    destruct (getitem friends a) as [ds|]; [by exists ds|].
    by apply elem_of_nil in Hb.
  - intros H a b Hab. pose proof (lists_key _ _ _ Hab) as Ha.
    destruct Hab as (ds & Hds & Hb). specialize (H a Ha).
    rewrite Hds in H. simpl in H. by eapply Forall_forall in H.
Qed.

#[global] Instance reciprocal_dec friends : Decision (reciprocal friends).
Proof.
  refine (cast_if (decide (Forall (λ a,
    Forall (λ b, b ∈ keys friends → lists friends b a)
      (default [] (getitem friends a))) (keys friends))));
    unfold reciprocal; by rewrite lists_forall.
Defined.

#[global] Instance mutual_dec friends : Decision (mutual friends).
Proof.
  refine (cast_if (decide (Forall (λ a,
    Forall (λ b, lists friends b a)
      (default [] (getitem friends a))) (keys friends))));
    unfold mutual; by rewrite lists_forall.
Defined.

#[global] Instance no_dislikes_listed_dec friends :
  Decision (no_dislikes_listed friends).
Proof.
  refine (cast_if (decide (Forall (λ a,
    Forall (λ b, False)
      (default [] (getitem friends a))) (keys friends))));
    unfold no_dislikes_listed.
  - intros a b Hab. revert a b Hab. by apply (lists_forall (λ _ _, False)).
  - intros H. assert (∀ a b, lists friends a b → False) as H' by exact H.
    by apply (lists_forall (λ _ _, False)) in H'.
Defined.

#[global] Instance keys_ascending_dec friends :
  Decision (keys_ascending friends).
Proof. unfold keys_ascending. apply _. Defined.

(** ** find_dislikes: which orientation is kept *)

Lemma find_dislikes_loop_app friends l1 l2 dislikes :
  find_dislikes_loop friends (l1 ++ l2) dislikes
  = find_dislikes_loop friends l1 dislikes ≫= find_dislikes_loop friends l2.
Proof.
  revert dislikes. induction l1 as [|p l1 IH]; intros dislikes; simpl; [done|].
  destruct (getitem friends p); simpl; [apply IH|done].
Qed.

(** A listed dislike is recorded unless its reverse is already there. *)
Lemma add_dislikes_first person ds dislikes b :
  b ∈ ds →
  (b, person) ∈ dislikes ∨ (person, b) ∈ add_dislikes person ds dislikes.
Proof.
  revert dislikes. induction ds as [|d ds IH]; simpl; intros dislikes.
  - by intros ?%elem_of_nil.
  - intros [->|Hb]%elem_of_cons.
    + case_decide as Hd; [by left|right].
      apply add_dislikes_mono. set_solver.
    + case_decide as Hd; [by apply IH|].
      destruct (IH ({[(person, d)]} ∪ dislikes) Hb) as [Hin|Hin]; [|by right].
      apply elem_of_union in Hin as [Heq%elem_of_singleton|Hin]; [|by left].
      right. apply add_dislikes_mono. injection Heq as -> ->. set_solver.
Qed.

Lemma find_dislikes_loop_first friends l1 l2 a b dislikes E :
  find_dislikes_loop friends (l1 ++ a :: l2) dislikes = Some E →
  lists friends a b → (b, a) ∉ dislikes → b ∉ l1 → (a, b) ∈ E.
Proof.
  rewrite find_dislikes_loop_app. intros HE (ds & Hds & Hb) Hno Hl1.
  destruct (find_dislikes_loop friends l1 dislikes) as [acc|] eqn:Hacc;
    [simpl in HE|done].
  rewrite Hds in HE. simpl in HE.
  eapply find_dislikes_loop_mono; [done|].
  destruct (add_dislikes_first a ds acc b Hb) as [Hin|Hin]; [|done].
  destruct (find_dislikes_loop_elem _ _ _ _ _ Hacc Hin) as [?|[? _]]; done.
Qed.

Lemma precedes_not_before (l l1 l2 : list string) a b :
  NoDup l → precedes l a b → l = l1 ++ a :: l2 → b ∉ l1.
Proof.
  intros Hnd (m1 & m2 & -> & Hb) Heq Hin.
  apply list_elem_of_split in Hb as (n1 & n2 & ->).
  apply list_elem_of_split in Hin as (k1 & k2 & ->).
  (* the positions of [a] and of [b] in the two splittings *)
  assert ((m1 ++ a :: n1 ++ b :: n2) !! length m1 = Some a) as Ha1
    by (by apply list_lookup_middle).
  assert ((m1 ++ a :: n1 ++ b :: n2) !! length (m1 ++ a :: n1) = Some b) as Hb1.
  { change (a :: n1 ++ b :: n2) with ((a :: n1) ++ b :: n2).
    rewrite app_assoc. by apply list_lookup_middle. }
  assert ((m1 ++ a :: n1 ++ b :: n2) !! length (k1 ++ b :: k2) = Some a) as Ha2
    by (rewrite Heq; by apply list_lookup_middle).
  assert ((m1 ++ a :: n1 ++ b :: n2) !! length k1 = Some b) as Hb2
    by (rewrite Heq, <- app_assoc; by apply list_lookup_middle).
  pose proof (NoDup_lookup _ _ _ _ Hnd Ha1 Ha2) as Hi.
  pose proof (NoDup_lookup _ _ _ _ Hnd Hb1 Hb2) as Hj.
  rewrite !length_app in Hi, Hj. simpl in Hi, Hj. lia.
Qed.

Lemma precedes_total (l : list string) a b :
  a ∈ l → b ∈ l → a ≠ b → precedes l a b ∨ precedes l b a.
Proof.
  intros (l1 & l2 & ->)%list_elem_of_split Hb Hne.
  apply elem_of_app in Hb as [Hb|[->|Hb]%elem_of_cons]; [|done|].
  - right. apply list_elem_of_split in Hb as (m1 & m2 & ->).
    exists m1, (m2 ++ a :: l2). split; [by rewrite <- app_assoc|].
    apply elem_of_app. right. left.
  - left. by exists l1, l2.
Qed.

(** The tuple kept for a pair is the one of the guest whose key comes first. *)
Lemma find_dislikes_orientation_kept friends E a b :
  dict_wf friends → find_dislikes friends = Some E →
  (a, b) ∈ E ↔
  lists friends a b ∧ (lists friends b a → a = b ∨ precedes (keys friends) a b).
Proof.
  intros Hwf HE. split.
  - intros Hab. pose proof (find_dislikes_elem _ _ _ _ HE Hab) as Hl.
    split; [done|]. intros Hl'.
    destruct (decide (a = b)) as [|Hne]; [by left|right].
    destruct (precedes_total (keys friends) a b) as [|(l1 & l2 & Hk & Ha)];
      [by eapply lists_key..|done|done|].
    destruct Hne. symmetry.
    apply (find_dislikes_orientation _ _ HE b a); [|done].
    unfold find_dislikes in HE. rewrite Hk in HE.
    eapply find_dislikes_loop_first; [done|done|set_solver|].
    eapply precedes_not_before; [exact Hwf| |exact Hk]. by exists l1, l2.
  - intros [Hl Hfirst].
    destruct (find_dislikes_cover _ _ _ _ HE Hl) as [|Hba]; [done|].
    destruct (Hfirst (find_dislikes_elem _ _ _ _ HE Hba))
      as [->|Hprec]; [done|].
    pose proof Hprec as (l1 & l2 & Hk & Hb).
    unfold find_dislikes in HE. rewrite Hk in HE.
    eapply find_dislikes_loop_first; [done|done|set_solver|].
    by eapply precedes_not_before.
Qed.

Lemma keys_ascending_precedes friends a b :
  keys_ascending friends → precedes (keys friends) a b → String.leb a b = true.
Proof.
  unfold keys_ascending. intros Hs (l1 & l2 & Hk & Hb). rewrite Hk in Hs.
  apply StronglySorted_app in Hs as (_ & _ & Hs).
  apply StronglySorted_cons in Hs as [Hall _].
  by eapply Forall_forall in Hall.
Qed.

(** X1.  [find_dislikes] never raises, and the set it returns holds a tuple
    for a pair of guests, in one orientation or the other, exactly when one
    of the two lists the other. *)
Theorem find_dislikes_represents friends :
  ∃ E, find_dislikes friends = Some E ∧
    ∀ a b, ((a, b) ∈ E ∨ (b, a) ∈ E) ↔
           (lists friends a b ∨ lists friends b a).
Proof.
  destruct (find_dislikes_total friends) as [E HE]. exists E.
  split; [done|]. intros a b. split.
  - intros [H|H]; [left|right]; by eapply find_dislikes_elem.
  - intros [H|H]; [|apply or_comm]; by eapply find_dislikes_cover.
Qed.

(** X2.  Of a pair that two guests list in both directions, the tuple kept
    is the one that starts with the guest whose key comes first in the
    mapping; a dislike listed in one direction only is kept as listed. *)
Theorem find_dislikes_first_key friends :
  dict_wf friends →
  ∃ E, find_dislikes friends = Some E ∧
    ∀ a b, (a, b) ∈ E ↔
           lists friends a b ∧
           (lists friends b a → a = b ∨ precedes (keys friends) a b).
Proof.
  intros Hwf. destruct (find_dislikes_total friends) as [E HE]. exists E.
  split; [done|]. intros a b. by apply find_dislikes_orientation_kept.
Qed.

Lemma find_dislikes_first_key_witness :
  ∃ E, find_dislikes friends_unsorted = Some E ∧
    ∀ a b, (a, b) ∈ E ↔
           lists friends_unsorted a b ∧
           (lists friends_unsorted b a →
            a = b ∨ precedes (keys friends_unsorted) a b).
Proof.
  apply (find_dislikes_first_key friends_unsorted).
  apply (bool_decide_unpack _). by vm_compute.
Defined.

(** X3.  When the keys are in alphabetical order and every dislike is listed
    in both directions, the set returned by [find_dislikes] is in the form
    that its docstring describes: each pair once, every tuple in
    alphabetical order, both guests keys of the mapping. *)
Theorem find_dislikes_canonical friends :
  dict_wf friends → keys_ascending friends → mutual friends →
  ∃ E, find_dislikes friends = Some E ∧ edges_canonical friends E.
Proof.
  intros Hwf Hasc Hmut. destruct (find_dislikes_total friends) as [E HE].
  exists E. split; [done|]. split_and!.
  - by apply (find_dislikes_orientation friends).
  - intros [a b] Hab. unfold tuple_sorted. simpl.
    apply (find_dislikes_orientation_kept _ _ _ _ Hwf HE) in Hab as [Hl Hfirst].
    destruct (Hfirst (Hmut _ _ Hl)) as [->|Hprec].
    + by destruct (String.leb_total b b).
    + by eapply keys_ascending_precedes.
  - intros [a b] Hab. simpl.
    apply (find_dislikes_elem _ _ _ _ HE) in Hab.
    split; [|apply Hmut in Hab]; by eapply lists_key.
Qed.

Lemma find_dislikes_canonical_witness :
  ∃ E, find_dislikes friends_2 = Some E ∧ edges_canonical friends_2 E.
Proof.
  apply (find_dislikes_canonical friends_2);
    apply (bool_decide_unpack _); by vm_compute.
Defined.

(** ** generate_all_subsets: how the enumeration is built up *)

(** X4.  Putting one more guest in front of a mapping doubles the
    enumeration: first come the subsets without the new guest, in their old
    order, then the same subsets again with the new guest in front. *)
Theorem generate_all_subsets_cons k v friends :
  ∃ all_subsets, generate_all_subsets friends = Some all_subsets ∧
    generate_all_subsets ((k, v) :: friends)
    = Some (all_subsets ++ ((k ::.) <$> all_subsets)).
Proof.
  exists (bit_enumeration (keys friends)).
  rewrite !generate_all_subsets_spec. split; [done|].
  by rewrite <- bit_enumeration_cons.
Qed.

(** X5.  Nothing is left out: a list of guests is in the enumeration exactly
    when it picks keys of the mapping in the order of the keys, and every set
    of keys is the set of guests of some enumerated subset. *)
Theorem generate_all_subsets_complete friends :
  ∃ all_subsets, generate_all_subsets friends = Some all_subsets ∧
    (∀ s, s ∈ all_subsets ↔ s `sublist_of` keys friends) ∧
    (∀ s : list string, (∀ x, x ∈ s → x ∈ keys friends) →
       ∃ t, t ∈ all_subsets ∧ ∀ x, x ∈ t ↔ x ∈ s).
Proof.
  exists (bit_enumeration (keys friends)).
  split; [apply generate_all_subsets_spec|]. split.
  - intros s. apply elem_of_bit_enumeration.
  - intros s Hs. exists (filter (.∈ s) (keys friends)). split.
    + apply elem_of_bit_enumeration, sublist_filter.
    + intros x. rewrite list_elem_of_filter. split; [by intros [? _]|auto].
Qed.

(** ** filter_bad_invites: how it composes *)

Lemma filter_filter_same {A} (P : A → Prop) `{!∀ x, Decision (P x)}
    (l : list A) : filter P (filter P l) = filter P l.
Proof. apply filter_all. by intros x [? _]%list_elem_of_filter. Qed.

(** X6.  Filtering a second time changes nothing: the list returned by
    [filter_bad_invites] is returned as it is when it is filtered again with
    the same mapping. *)
Theorem filter_bad_invites_idempotent iter all_subsets friends :
  iteration_order iter →
  ∃ good, filter_bad_invites iter all_subsets friends = Some good ∧
          filter_bad_invites iter good friends = Some good.
Proof.
  intros Hiter. destruct (find_dislikes_total friends) as [E HE].
  exists (filter (valid E) all_subsets).
  rewrite !(filter_bad_invites_spec iter _ friends E) by done.
  by rewrite filter_filter_same.
Qed.

Lemma filter_bad_invites_idempotent_witness :
  ∃ good,
    filter_bad_invites elements [["Alice"; "Bob"]; ["Eve"]] friends_2
      = Some good ∧
    filter_bad_invites elements good friends_2 = Some good.
Proof.
  apply (filter_bad_invites_idempotent elements
           [["Alice"; "Bob"]; ["Eve"]] friends_2).
  intros s. reflexivity.
Defined.

(** X7.  Filtering a concatenation gives the concatenation of the two
    filtered lists, although the removal works on the whole list by
    equality of subsets. *)
Theorem filter_bad_invites_app iter l1 l2 friends :
  iteration_order iter →
  ∃ g1 g2, filter_bad_invites iter l1 friends = Some g1 ∧
           filter_bad_invites iter l2 friends = Some g2 ∧
           filter_bad_invites iter (l1 ++ l2) friends = Some (g1 ++ g2).
Proof.
  intros Hiter. destruct (find_dislikes_total friends) as [E HE].
  exists (filter (valid E) l1), (filter (valid E) l2).
  rewrite !(filter_bad_invites_spec iter _ friends E) by done.
  by rewrite filter_app.
Qed.

Lemma filter_bad_invites_app_witness :
  ∃ g1 g2,
    filter_bad_invites elements [["Alice"; "Bob"]; ["Eve"]] friends_2
      = Some g1 ∧
    filter_bad_invites elements [["Alice"; "Bob"]; ["Bob"]] friends_2
      = Some g2 ∧
    filter_bad_invites elements
      ([["Alice"; "Bob"]; ["Eve"]] ++ [["Alice"; "Bob"]; ["Bob"]]) friends_2
      = Some (g1 ++ g2).
Proof.
  apply (filter_bad_invites_app elements [["Alice"; "Bob"]; ["Eve"]]
           [["Alice"; "Bob"]; ["Bob"]] friends_2).
  intros s. reflexivity.
Defined.

Lemma no_dislikes_listed_valid friends E s :
  no_dislikes_listed friends → find_dislikes friends = Some E → valid E s.
Proof.
  intros Hno HE [a b] Hab. destruct (Hno a b). by eapply find_dislikes_elem.
Qed.

(** X8.  When no guest of the mapping lists a dislike, [filter_bad_invites]
    returns its input list as it is, whatever subsets it holds. *)
Theorem filter_bad_invites_no_dislikes iter all_subsets friends :
  iteration_order iter → no_dislikes_listed friends →
  filter_bad_invites iter all_subsets friends = Some all_subsets.
Proof.
  intros Hiter Hno. destruct (find_dislikes_total friends) as [E HE].
  rewrite (filter_bad_invites_spec iter _ friends E) by done.
  f_equal. apply filter_all. intros s _. by eapply no_dislikes_listed_valid.
Qed.

Lemma filter_bad_invites_no_dislikes_witness :
  filter_bad_invites elements [["Cleo"; "Don"]; ["Zed"; "Zed"]]
    [("Cleo", []); ("Don", [])]
  = Some [["Cleo"; "Don"]; ["Zed"; "Zed"]].
Proof.
  apply (filter_bad_invites_no_dislikes elements
           [["Cleo"; "Don"]; ["Zed"; "Zed"]] [("Cleo", []); ("Don", [])]).
  - intros s. reflexivity.
  - apply (bool_decide_unpack _). by vm_compute.
Defined.

(** ** filter_no_dislikes: the two parts *)

Lemma entangled_wf friends : dict_wf friends → dict_wf (entangled friends).
Proof.
  unfold dict_wf, keys, entangled. intros Hwf.
  eapply sublist_NoDup; [exact Hwf|]. apply fmap_sublist, sublist_filter.
Qed.

Lemma getitem_entangled friends k v :
  dict_wf friends →
  getitem (entangled friends) k = Some v ↔ getitem friends k = Some v ∧ v ≠ [].
Proof.
  intros Hwf. split.
  - intros Hin%getitem_Some_elem_of.
    apply list_elem_of_filter in Hin as [Hv Hin]. split; [|done].
    by apply getitem_wf.
  - intros [Hin%getitem_Some_elem_of Hv].
    apply getitem_wf; [by apply entangled_wf|].
    by apply list_elem_of_filter.
Qed.

Lemma elem_of_isolated friends k :
  dict_wf friends → k ∈ isolated friends ↔ getitem friends k = Some [].
Proof.
  intros Hwf. split; [by apply isolated_getitem|].
  intros Hin%getitem_Some_elem_of. apply list_elem_of_fmap.
  exists (k, []). split; [done|]. by apply list_elem_of_filter.
Qed.

(** X9.  [filter_no_dislikes] never raises; the list it returns holds the
    guests whose own list is empty, the mapping it returns holds the other
    entries with the lists they had, both in the order of the keys, and every
    guest of the input is in exactly one of the two. *)
Theorem filter_no_dislikes_partition friends :
  dict_wf friends →
  ∃ no_dislikes new_friends,
    filter_no_dislikes friends = Some (no_dislikes, new_friends) ∧
    (∀ k, k ∈ no_dislikes ↔ getitem friends k = Some []) ∧
    (∀ k v, getitem new_friends k = Some v ↔
            getitem friends k = Some v ∧ v ≠ []) ∧
    no_dislikes `sublist_of` keys friends ∧
    keys new_friends `sublist_of` keys friends ∧
    keys new_friends ++ no_dislikes ≡ₚ keys friends ∧
    dict_wf new_friends.
Proof.
  intros Hwf. exists (isolated friends), (entangled friends). split_and!.
  - by apply filter_no_dislikes_spec.
  - intros k. by apply elem_of_isolated.
  - intros k v. by apply getitem_entangled.
  - apply isolated_sublist.
  - unfold keys, entangled. apply fmap_sublist, sublist_filter.
  - apply isolated_entangled_keys.
  - by apply entangled_wf.
Qed.

Lemma filter_no_dislikes_partition_witness :
  ∃ no_dislikes new_friends,
    filter_no_dislikes friends_1 = Some (no_dislikes, new_friends) ∧
    (∀ k, k ∈ no_dislikes ↔ getitem friends_1 k = Some []) ∧
    (∀ k v, getitem new_friends k = Some v ↔
            getitem friends_1 k = Some v ∧ v ≠ []) ∧
    no_dislikes `sublist_of` keys friends_1 ∧
    keys new_friends `sublist_of` keys friends_1 ∧
    keys new_friends ++ no_dislikes ≡ₚ keys friends_1 ∧
    dict_wf new_friends.
Proof.
  apply (filter_no_dislikes_partition friends_1).
  apply (bool_decide_unpack _). by vm_compute.
Defined.

(** X10.  Reducing twice changes nothing: on the mapping returned by
    [filter_no_dislikes], the function finds no guest without dislikes and
    returns that mapping again. *)
Theorem filter_no_dislikes_idempotent friends :
  dict_wf friends →
  ∃ no_dislikes new_friends,
    filter_no_dislikes friends = Some (no_dislikes, new_friends) ∧
    filter_no_dislikes new_friends = Some ([], new_friends).
Proof.
  intros Hwf. exists (isolated friends), (entangled friends).
  rewrite !filter_no_dislikes_spec by (done || by apply entangled_wf).
  split; [done|]. f_equal. f_equal.
  - unfold isolated, entangled.
    assert (filter (λ kv : string * list string, kv.2 = [])
              (filter (λ kv : string * list string, kv.2 ≠ []) friends) = [])
      as ->; [|done].
    induction friends as [|[k v] rest IH]; [done|].
    rewrite (filter_cons (λ kv : string * list string, kv.2 ≠ [])).
    apply NoDup_cons in Hwf as [_ Hwf]. case_decide; [|by apply IH].
    rewrite filter_cons_False by (simpl in *; done). by apply IH.
  - unfold entangled. apply filter_filter_same.
Qed.

Lemma filter_no_dislikes_idempotent_witness :
  ∃ no_dislikes new_friends,
    filter_no_dislikes friends_1 = Some (no_dislikes, new_friends) ∧
    filter_no_dislikes new_friends = Some ([], new_friends).
Proof.
  apply (filter_no_dislikes_idempotent friends_1).
  apply (bool_decide_unpack _). by vm_compute.
Defined.

(** X11.  When dislikes between guests of the mapping are listed in both
    directions, the guests returned by [filter_no_dislikes] are exactly the
    keys that are in no tuple of [find_dislikes]. *)
Theorem filter_no_dislikes_no_edge friends :
  dict_wf friends → reciprocal friends →
  ∃ E no_dislikes new_friends,
    find_dislikes friends = Some E ∧
    filter_no_dislikes friends = Some (no_dislikes, new_friends) ∧
    ∀ k, k ∈ no_dislikes ↔
         k ∈ keys friends ∧ ∀ y, ((k, y) ∉ E) ∧ ((y, k) ∉ E).
Proof.
  intros Hwf Hrec. destruct (find_dislikes_total friends) as [E HE].
  exists E, (isolated friends), (entangled friends).
  split; [done|]. split; [by apply filter_no_dislikes_spec|].
  intros k. split.
  - intros Hk. split; [by eapply elem_of_sublist, isolated_sublist|].
    intros y. split; intros Hin;
      by destruct (isolated_no_edge _ _ _ _ Hwf Hrec HE Hin).
  - intros [Hk Hno]. apply elem_of_isolated; [done|].
    destruct (getitem_key _ _ Hk) as [ds Hds]. rewrite Hds. f_equal.
    destruct ds as [|y ds]; [done|].
    assert (lists friends k y) as Hl by (exists (y :: ds); split; [done|left]).
    destruct (Hno y) as [H1 H2].
    by destruct (find_dislikes_cover _ _ _ _ HE Hl).
Qed.

Lemma filter_no_dislikes_no_edge_witness :
  ∃ E no_dislikes new_friends,
    find_dislikes friends_1 = Some E ∧
    filter_no_dislikes friends_1 = Some (no_dislikes, new_friends) ∧
    ∀ k, k ∈ no_dislikes ↔
         k ∈ keys friends_1 ∧ ∀ y, ((k, y) ∉ E) ∧ ((y, k) ∉ E).
Proof.
  apply (filter_no_dislikes_no_edge friends_1);
    apply (bool_decide_unpack _); by vm_compute.
Defined.

(** ** The selection functions: what they return *)

(** X12.  The selection loop, started with the empty list: no list of
    [good_subsets] is longer than the one returned; the empty list is
    returned when [good_subsets] holds nothing but empty lists, and otherwise
    the first of the longest lists. *)
Theorem select_loop_first_longest good_subsets :
  (∀ x, x ∈ good_subsets →
        length x ≤ length (select_loop good_subsets [])) ∧
  ((select_loop good_subsets [] = [] ∧ ∀ x, x ∈ good_subsets → x = []) ∨
   (select_loop good_subsets [] ≠ [] ∧
    first_longest (select_loop good_subsets []) good_subsets)).
Proof.
  destruct (select_loop_spec good_subsets []) as [[Heq Hle]|[Hlt Hfirst]].
  - rewrite Heq. split; [done|]. left. split; [done|].
    intros x Hx. apply Hle in Hx. by apply nil_length_inv; simpl in Hx; lia.
  - split; [intros x Hx; by eapply first_longest_longest|].
    right. split; [|done]. intros Heq. rewrite Heq in Hlt. simpl in Hlt. lia.
Qed.



(** A largest valid list over all guests splits into a valid list over the
    guests with dislikes and a list of guests without. *)
Lemma selected_le_reduced E friends :
  dict_wf friends →
  length (select_loop (filter (valid E) (bit_enumeration (keys friends))) [])
  ≤ length
      (select_loop
         (filter (valid E) (bit_enumeration (keys (entangled friends)))) []
       ++ isolated friends).
Proof.
  intros Hwf.
  pose proof (isolated_entangled_keys friends) as Hperm.
  assert (NoDup (keys (entangled friends) ++ isolated friends)) as Hnd
    by (by rewrite Hperm).
  pose proof (selected_sublist E (keys friends)) as Hr.
  pose proof (sublist_NoDup _ _ Hwf Hr) as Hrnd.
  rewrite <- (filter_app_complement (.∈ keys (entangled friends))
                (select_loop _ [])).
  rewrite !length_app. apply Nat.add_le_mono.
  - apply selected_longest.
    + by apply NoDup_app in Hnd as (? & _).
    + by apply NoDup_filter.
    + by intros x [? _]%list_elem_of_filter.
    + eapply valid_subseteq; [|apply (selected_valid E (keys friends))].
      by intros x [_ ?]%list_elem_of_filter.
  - apply submseteq_length, NoDup_submseteq; [by apply NoDup_filter|].
    intros x [Hx Hin]%list_elem_of_filter.
    assert (x ∈ keys (entangled friends) ++ isolated friends) as Hk.
    { rewrite Hperm. by eapply elem_of_sublist. }
    by apply elem_of_app in Hk as [?|?].
Qed.

(** X14.  The list of [invite_to_dinner_optimized] is never shorter than
    that of [invite_to_dinner], and the two have the same length whenever
    the optimized list holds no two guests one of whom lists the other. *)
Theorem optimized_not_shorter iter friends :
  iteration_order iter → dict_wf friends →
  ∃ r r', invite_to_dinner iter friends = Some r ∧
    invite_to_dinner_optimized iter friends = Some r' ∧
    length r ≤ length r' ∧
    ((∀ a b, a ∈ r' → b ∈ r' → ¬ lists friends a b) →
     length r = length r').
Proof.
  intros Hiter Hwf. destruct (find_dislikes_total friends) as [E HE].
  eexists _, _. split; [by apply invite_to_dinner_spec|].
  split; [by apply invite_to_dinner_optimized_spec|].
  pose proof (selected_le_reduced E friends Hwf) as Hle.
  split; [done|]. intros Hv. apply Nat.le_antisymm; [done|].
  pose proof (isolated_entangled_keys friends) as Hperm.
  assert (select_loop
            (filter (valid E) (bit_enumeration (keys (entangled friends)))) []
          ++ isolated friends
          `sublist_of` keys (entangled friends) ++ isolated friends) as Hsub
    by (apply sublist_app; [apply selected_sublist|done]).
  apply selected_longest; [done| | |].
  - eapply sublist_NoDup; [|exact Hsub]. by rewrite Hperm.
  - intros x Hx. rewrite <- Hperm. by eapply elem_of_sublist.
  - apply (valid_lists _ _ _ HE). intros a b Hab [Ha Hb]. by apply (Hv a b).
Qed.

Lemma optimized_not_shorter_witness :
  ∃ r r', invite_to_dinner elements friends_one_way = Some r ∧
    invite_to_dinner_optimized elements friends_one_way = Some r' ∧
    length r ≤ length r' ∧
    ((∀ a b, a ∈ r' → b ∈ r' → ¬ lists friends_one_way a b) →
     length r = length r').
Proof.
  apply (optimized_not_shorter elements friends_one_way).
  - intros s. reflexivity.
  - apply (bool_decide_unpack _). by vm_compute.
Defined.

Lemma reciprocal_selection_agrees_witness :
  ∃ E r r', find_dislikes friends_1 = Some E ∧
    invite_to_dinner elements friends_1 = Some r ∧
    invite_to_dinner_optimized elements friends_1 = Some r' ∧
    length r = length r' ∧ valid E r ∧ valid E r' ∧
    (∀ s, NoDup s → (∀ x, x ∈ s → x ∈ keys friends_1) → valid E s →
          length s ≤ length r).
Proof.
  apply (reciprocal_selection_agrees elements friends_1).
  - intros s. reflexivity.
  - apply (bool_decide_unpack _). by vm_compute.
  - apply (bool_decide_unpack _). by vm_compute.
Defined.

Lemma sublist_length_eq {A} (l1 l2 : list A) :
  l1 `sublist_of` l2 → length l2 ≤ length l1 → l1 = l2.
Proof.
  induction 1 as [|x l1 l2 Hsub IH|x l1 l2 Hsub IH]; simpl; intros Hlen.
  - done.
  - f_equal. apply IH. lia.
  - apply sublist_length in Hsub. lia.
Qed.

Lemma filter_none {A} (P : A → Prop) `{!∀ x, Decision (P x)} (l : list A) :
  (∀ x, x ∈ l → ¬ P x) → filter P l = [].
Proof.
  induction l as [|x l IH]; intros Hall; [done|].
  rewrite filter_cons_False by (apply Hall; left). apply IH.
  intros y Hy. apply Hall. by right.
Qed.

Lemma no_dislikes_listed_empty friends k v :
  dict_wf friends → no_dislikes_listed friends → (k, v) ∈ friends → v = [].
Proof.
  intros Hwf Hno Hin. destruct v as [|y v]; [done|].
  destruct (Hno k y). exists (y :: v). split; [by apply getitem_wf|left].
Qed.

(** X16.  When no guest lists a dislike, both selection functions invite
    everybody: each returns the keys of the mapping, in their order. *)
Theorem invite_everybody iter friends :
  iteration_order iter → dict_wf friends → no_dislikes_listed friends →
  invite_to_dinner iter friends = Some (keys friends) ∧
  invite_to_dinner_optimized iter friends = Some (keys friends).
Proof.
  intros Hiter Hwf Hno. destruct (find_dislikes_total friends) as [E HE].
  rewrite (invite_to_dinner_spec iter friends E),
    (invite_to_dinner_optimized_spec iter friends E) by done.
  assert (filter (λ kv : string * list string, kv.2 = []) friends = friends)
    as Hiso.
  { apply filter_all. intros [k v] Hin. simpl.
    by eapply no_dislikes_listed_empty. }
  assert (entangled friends = []) as Hent.
  { unfold entangled. apply filter_none. intros [k v] Hin Hv. apply Hv.
    simpl. by eapply no_dislikes_listed_empty. }
  split; f_equal.
  - apply sublist_length_eq; [apply selected_sublist|].
    apply selected_longest; [done..|].
    apply (no_dislikes_listed_valid friends E _ Hno HE).
  - rewrite Hent. unfold isolated. rewrite Hiso.
    change (bit_enumeration (keys [])) with [[] : list string].
    by rewrite filter_cons_True by apply valid_nil.
Qed.

Lemma invite_everybody_witness :
  invite_to_dinner elements [("Cleo", []); ("Don", [])]
    = Some (keys [("Cleo", []); ("Don", [])]) ∧
  invite_to_dinner_optimized elements [("Cleo", []); ("Don", [])]
    = Some (keys [("Cleo", []); ("Don", [])]).
Proof.
  apply (invite_everybody elements [("Cleo", []); ("Don", [])]).
  - intros s. reflexivity.
  - apply (bool_decide_unpack _). by vm_compute.
  - apply (bool_decide_unpack _). by vm_compute.
Defined.

(** X17.  A guest that lists itself among its own dislikes is invited by
    neither selection function. *)
Theorem self_lister_not_invited iter friends x :
  iteration_order iter → dict_wf friends → lists friends x x →
  ∃ r r', invite_to_dinner iter friends = Some r ∧
    invite_to_dinner_optimized iter friends = Some r' ∧
    (x ∉ r) ∧ (x ∉ r').
Proof.
  intros Hiter Hwf Hx. destruct (find_dislikes_total friends) as [E HE].
  eexists _, _. split; [by apply invite_to_dinner_spec|].
  split; [by apply invite_to_dinner_optimized_spec|].
  assert ((x, x) ∈ E) as HxE
    by (by destruct (find_dislikes_cover _ _ _ _ HE Hx)).
  assert (∀ l, x ∉ select_loop (filter (valid E) (bit_enumeration l)) [])
    as Hsel.
  { intros l Hin. by apply (selected_valid E l (x, x) HxE). }
  split; [apply Hsel|].
  intros [Hin|Hin]%elem_of_app; [by apply (Hsel _ Hin)|].
  destruct Hx as (ds & Hds & Hin').
  rewrite (isolated_getitem _ _ Hwf Hin) in Hds. injection Hds as <-.
  by apply elem_of_nil in Hin'.
Qed.

Lemma self_lister_not_invited_witness :
  ∃ r r', invite_to_dinner elements friends_self = Some r ∧
    invite_to_dinner_optimized elements friends_self = Some r' ∧
    ("Ann" ∉ r) ∧ ("Ann" ∉ r').
Proof.
  apply (self_lister_not_invited elements friends_self "Ann").
  - intros s. reflexivity.
  - apply (bool_decide_unpack _). by vm_compute.
  - apply (bool_decide_unpack _). by vm_compute.
Defined.

(** ** filter_bad_invites on references: a second call *)

(** X18.  After one call of [filter_bad_invites] on a list object, a second
    call on the same object with the same mapping returns the same
    reference and leaves the whole store as the first call left it. *)
Theorem store_filter_bad_invites_twice iter (h : gmap nat Store.obj) a f l d :
  iteration_order iter →
  h !! a = Some (Store.OList l) → h !! f = Some (Store.ODict d) →
  ∃ h', Store.filter_bad_invites iter a f h = Some (a, h') ∧
        Store.filter_bad_invites iter a f h' = Some (a, h').
Proof.
  intros Hiter Ha Hf. destruct (find_dislikes_total d) as [E HE].
  assert (a ≠ f) as Hne by (intros ->; congruence).
  exists (<[a := Store.OList (filter (valid E) l)]> h).
  split; [by apply (store_filter_bad_invites_spec iter h a f l d E)|].
  rewrite (store_filter_bad_invites_spec iter _ a f
             (filter (valid E) l) d E Hiter);
    [|by rewrite lookup_insert_eq|by rewrite lookup_insert_ne|done].
  by rewrite insert_insert_eq, filter_filter_same.
Qed.

Lemma store_filter_bad_invites_twice_witness :
  ∃ h', Store.filter_bad_invites elements 0 1 Store.heap_0 = Some (0, h') ∧
        Store.filter_bad_invites elements 0 1 h' = Some (0, h').
Proof.
  apply (store_filter_bad_invites_twice elements Store.heap_0 0 1
           [["Alice"]; ["Alice"; "Bob"]] friends_2).
  - intros s. reflexivity.
  - reflexivity.
  - reflexivity.
Defined.
